(** * songbook/song.py: the [Song] wrapper around ukedown songsheets

    A shallow embedding of [songbook.song.Song]: the constructor, the
    private [__load] and [__parse] steps, the property setters and the
    tag methods, with the Python built-ins they rely on ([str.strip],
    [str.split], [list.pop], [set.pop], name lookup).

    The markdown renderer, the BeautifulSoup reader, the serializer of
    tree nodes, the file system and [str.lower] are collaborators of the
    module: they are gathered in the record [Env] and every definition
    is parametrised by it. *)

From Stdlib Require Import NArith Ascii String.
From stdpp Require Import base option list gmap strings.

Local Open Scope N_scope.
#[local] Set Warnings "-clear-no-such-hyp".

(** ** Python text *)

(** A Python [str] is a sequence of Unicode code points. *)
Abbreviation pystr := (list N).

(** Literals: the code points of an ASCII string. *)
Definition u (s : string) : pystr :=
  map N_of_ascii (list_ascii_of_string s).

(** Exceptions raised by the module or by the built-ins it calls. *)
Inductive exn : Type :=
  | AttributeError
  | IndexError
  | NameError
  | TypeError
  | OSError
  | UnicodeDecodeError.

(** Computations that return a value or raise an exception. *)
Definition result (A : Type) : Type := exn + A.

Definition raise {A} (e : exn) : result A := inl e.

#[global] Instance result_ret : MRet result := fun _ a => inr a.
#[global] Instance result_bind : MBind result := fun _ _ k m =>
  match m with
  | inl e => inl e
  | inr a => k a
  end.

(** [str.isspace] on one code point: the characters CPython's
    [str.split()] and [str.strip()] treat as whitespace. *)
Definition isspace (c : N) : bool :=
  (9 <=? c) && (c <=? 13)
  || (28 <=? c) && (c <=? 32)
  || (c =? 133) || (c =? 160) || (c =? 5760)
  || (8192 <=? c) && (c <=? 8202)
  || (c =? 8232) || (c =? 8233) || (c =? 8239) || (c =? 8287)
  || (c =? 12288).

(** Leading whitespace removed ([str.lstrip()]). *)
Fixpoint lstrip (s : pystr) : pystr :=
  match s with
  | [] => []
  | c :: s' => if isspace c then lstrip s' else s
  end.

(** [str.strip()]: whitespace removed at both ends. *)
Definition strip (s : pystr) : pystr :=
  reverse (lstrip (reverse (lstrip s))).

(** [str.split()] without arguments: the maximal runs of non-whitespace
    characters, in order.  [cur] holds the run being read, reversed. *)
Fixpoint split_ws_from (cur : pystr) (s : pystr) : list pystr :=
  match s with
  | [] => match cur with [] => [] | _ => [reverse cur] end
  | c :: s' =>
      if isspace c then
        match cur with
        | [] => split_ws_from [] s'
        | _ => reverse cur :: split_ws_from [] s'
        end
      else split_ws_from (c :: cur) s'
  end.

Definition split_ws (s : pystr) : list pystr := split_ws_from [] s.

(** [s.partition(sep)] for a one-character separator: the text before
    and after the first [sep], or [None] when [s] has none. *)
Fixpoint cut_at (sep : N) (s : pystr) : option (pystr * pystr) :=
  match s with
  | [] => None
  | c :: s' =>
      if c =? sep then Some ([], s')
      else match cut_at sep s' with
           | Some (a, b) => Some (c :: a, b)
           | None => None
           end
  end.

(** [s.split(sep, 1)] for a one-character separator. *)
Definition split1 (sep : N) (s : pystr) : list pystr :=
  match cut_at sep s with
  | Some (a, b) => [a; b]
  | None => [s]
  end.

(** [l.pop(0)]: the first element, [IndexError] on an empty list. *)
Definition pop0 {A} (l : list A) : result A :=
  match l with
  | [] => raise IndexError
  | x :: _ => mret x
  end.

(** The hyphen-minus, U+002D. *)
Definition hyphen : N := 45.

(** ** The BeautifulSoup tree *)

(** A node of the parsed document: a string, a comment, or a tag with
    its name, its attributes and its children.  An attribute holds a
    list of values, as bs4 keeps [class]; a single-valued attribute is
    a one-element list. *)
#[warnings="-register-all"] Inductive node : Type :=
  | NavigableString (s : pystr)
  | Comment (s : pystr)
  | Tag (name : pystr) (attrs : list (pystr * list pystr))
        (contents : list node).

(** A [BeautifulSoup] object: the children of the document root. *)
Definition soup : Type := list node.

Definition contents (n : node) : list node :=
  match n with
  | Tag _ _ cs => cs
  | _ => []
  end.

(** [dict.get] on the attributes of a tag. *)
Fixpoint attr_get (key : pystr) (attrs : list (pystr * list pystr))
  : option (list pystr) :=
  match attrs with
  | [] => None
  | (k, v) :: rest => if decide (k = key) then Some v else attr_get key rest
  end.

(** The filter of [find(name, attrs)] and [findAll(name, attrs)]: a tag
    of that name each of whose requested attributes has the requested
    value among its values. *)
Definition matches (name : pystr) (want : list (pystr * pystr))
    (n : node) : bool :=
  match n with
  | Tag x attrs _ =>
      bool_decide (x = name)
      && forallb (fun kv =>
           match attr_get kv.1 attrs with
           | Some vs => bool_decide (kv.2 ∈ vs)
           | None => false
           end) want
  | _ => false
  end.

(** First successful result of [f] along a list. *)
Definition first_some {A B} (f : A → option B) : list A → option B :=
  fix go l :=
    match l with
    | [] => None
    | x :: l' => match f x with Some r => Some r | None => go l' end
    end.

(** [.text]: the strings below a node, concatenated in document order;
    comments are left out. *)
Fixpoint get_text (n : node) : pystr :=
  match n with
  | NavigableString s => s
  | Comment _ => []
  | Tag _ _ cs => concat (map get_text cs)
  end.

(** First node in document order that passes [p], [n] included. *)
Fixpoint find_node (p : node → bool) (n : node) : option node :=
  if p n then Some n
  else match n with
       | Tag _ _ cs => first_some (find_node p) cs
       | _ => None
       end.

(** [soup.find(...)], which is also [soup.h1] and [soup.body]. *)
Definition find (p : node → bool) (sp : soup) : option node :=
  first_some (find_node p) sp.

(** All nodes that pass [p], in document order, [n] included. *)
Fixpoint find_all_node (p : node → bool) (n : node) : list node :=
  (if p n then [n] else [])
  ++ match n with
     | Tag _ _ cs => concat (map (find_all_node p) cs)
     | _ => []
     end.

(** [soup.findAll(...)]. *)
Definition findAll (p : node → bool) (sp : soup) : list node :=
  concat (map (find_all_node p) sp).

(** Detach the first node that passes [p] from a list of siblings,
    looking into each sibling before the next one: the node and the
    siblings without it.  [inside] does the same below one node. *)
Definition extract_among (p : node → bool)
    (inside : node → option (node * node))
  : list node → option (node * list node) :=
  fix go l :=
    match l with
    | [] => None
    | x :: l' =>
        if p x then Some (x, l')
        else match inside x with
             | Some (h, x') => Some (h, x' :: l')
             | None =>
                 match go l' with
                 | Some (h, l'') => Some (h, x :: l'')
                 | None => None
                 end
             end
    end.

Fixpoint extract_below (p : node → bool) (n : node)
  : option (node * node) :=
  match n with
  | Tag x attrs cs =>
      match extract_among p (extract_below p) cs with
      | Some (h, cs') => Some (h, Tag x attrs cs')
      | None => None
      end
  | _ => None
  end.

(** [soup.find(...).extract()] when the find succeeds: the found
    element and the tree it was detached from. *)
Definition extract (p : node → bool) (sp : soup) : option (node * soup) :=
  extract_among p (extract_below p) sp.

(** ** Collaborators *)

(** What the module takes from outside: the file system, the markdown
    renderer with the [nl2br] and [ukedown.udn] extensions, the
    BeautifulSoup reader on the lxml parser, [str] of a tree node and
    [str.lower].  The renderer is a function on text; what it does when
    handed [None] is a field of its own. *)
Record Env : Type := {
  os_path_exists : pystr → bool;
  codecs_read : pystr → result pystr;
  markdown_markdown : pystr → pystr;
  markdown_None : result pystr;
  bs : pystr → soup;
  node_str : node → pystr;
  str_lower : pystr → pystr
}.

(** ** The Song object *)

(** The instance attributes.  A text attribute holds a [str] or [None].
    [other] is the rest of the instance dictionary: attributes a keyword
    argument created under a name the class does not define. *)
Record Song : Type := {
  _markup : option pystr;
  _filename : option pystr;
  _chords : list pystr;
  _title : option pystr;
  _artist : option pystr;
  body : option pystr;
  _tags : gset pystr;
  other : gmap pystr (option pystr)
}.

(** The object before any attribute has been assigned.  No method reads
    an attribute before the constructor has assigned it, so the values
    given here are never observed. *)
Definition new_object : Song :=
  {| _markup := None; _filename := None; _chords := []; _title := None;
     _artist := None; body := None; _tags := ∅; other := ∅ |}.

Definition set__markup (v : option pystr) (self : Song) : Song :=
  {| _markup := v; _filename := _filename self; _chords := _chords self;
     _title := _title self; _artist := _artist self; body := body self;
     _tags := _tags self; other := other self |}.

Definition set__filename (v : option pystr) (self : Song) : Song :=
  {| _markup := _markup self; _filename := v; _chords := _chords self;
     _title := _title self; _artist := _artist self; body := body self;
     _tags := _tags self; other := other self |}.

Definition set__chords (v : list pystr) (self : Song) : Song :=
  {| _markup := _markup self; _filename := _filename self; _chords := v;
     _title := _title self; _artist := _artist self; body := body self;
     _tags := _tags self; other := other self |}.

Definition set__title (v : option pystr) (self : Song) : Song :=
  {| _markup := _markup self; _filename := _filename self;
     _chords := _chords self; _title := v; _artist := _artist self;
     body := body self; _tags := _tags self; other := other self |}.

Definition set__artist (v : option pystr) (self : Song) : Song :=
  {| _markup := _markup self; _filename := _filename self;
     _chords := _chords self; _title := _title self; _artist := v;
     body := body self; _tags := _tags self; other := other self |}.

Definition set_body (v : option pystr) (self : Song) : Song :=
  {| _markup := _markup self; _filename := _filename self;
     _chords := _chords self; _title := _title self;
     _artist := _artist self; body := v; _tags := _tags self;
     other := other self |}.

Definition set__tags (v : gset pystr) (self : Song) : Song :=
  {| _markup := _markup self; _filename := _filename self;
     _chords := _chords self; _title := _title self;
     _artist := _artist self; body := body self; _tags := v;
     other := other self |}.

Definition set_other (v : gmap pystr (option pystr)) (self : Song) : Song :=
  {| _markup := _markup self; _filename := _filename self;
     _chords := _chords self; _title := _title self;
     _artist := _artist self; body := body self; _tags := _tags self;
     other := v |}.

(** The public names the class defines: its properties, its methods
    and the attribute [body]. *)
Definition class_names : list pystr :=
  [u "markup"; u "filename"; u "artist"; u "title"; u "chords"; u "tags";
   u "tag"; u "untag"; u "clear_tags"; u "render"; u "pdf"; u "body"].

(** The parameters of the constructor: a call cannot pass them as
    keyword arguments besides [src], so they are never keys of
    [kwargs]. *)
Definition parameter_names : list pystr := [u "self"; u "src"].

(** A name that [setattr] files in the instance dictionary without
    touching anything the class reads: it does not start with an
    underscore (the instance attributes, the mangled private methods
    and the names inherited from [object] all do), is not a public
    name of the class and is not a parameter of the constructor. *)
Definition fresh_name (name : pystr) : bool :=
  match name with
  | c :: _ => negb (c =? 95)
  | [] => true
  end
  && bool_decide (name ∉ class_names)
  && bool_decide (name ∉ parameter_names).

(** Keyword arguments of the constructor, by the attribute they name,
    each with a value of the type the attribute holds: the properties
    ([markup], [filename], [artist], [title], [tags], [chords]), the
    instance attributes themselves ([_markup], [_filename], [_title],
    [_artist], [_chords], [_tags], [body]), and any fresh name
    ([title_sort], [artist_sort], ...). *)
Inductive kwarg : Type :=
  | kw_markup (content : option pystr)
  | kw_filename (path : option pystr)
  | kw_artist (value : option pystr)
  | kw_title (value : option pystr)
  | kw_tags (taglist : list pystr)
  | kw_chords (value : option pystr)
  | kw_body (value : option pystr)
  | kw__markup (value : option pystr)
  | kw__filename (value : option pystr)
  | kw__title (value : option pystr)
  | kw__artist (value : option pystr)
  | kw__chords (value : list pystr)
  | kw__tags (value : gset pystr)
  | kw_other (name : pystr) (value : option pystr)
             (fresh : fresh_name name = true).

(** A method body: it runs on the object, may change it, and returns or
    raises; the object is kept in both cases. *)
Definition method (A : Type) : Type := Song → result A * Song.

#[global] Instance method_ret : MRet method := fun _ a self => (inr a, self).
#[global] Instance method_bind : MBind method := fun _ _ k m self =>
  match m self with
  | (inl e, self') => (inl e, self')
  | (inr a, self') => k a self'
  end.

(** A computation that does not touch the object. *)
Definition lift {A} (r : result A) : method A := fun self => (r, self).

(** [self.attr]. *)
Definition read {A} (attr : Song → A) : method A :=
  fun self => (inr (attr self), self).

(** [self.attr = v]. *)
Definition assign {A} (set_attr : A → Song → Song) (v : A) : method () :=
  fun self => (inr (), set_attr v self).

(** Reading a name inside a method body.  [locals] are the parameters
    of the method besides [self].  The module binds only [os], [codecs],
    [markdown], [ukedown], [bs] and [Song] globally and none of the
    names read below is a built-in, so a name that is not a parameter
    is unbound. *)
Fixpoint load_name {A} (locals : list (string * A)) (name : string)
  : result A :=
  match locals with
  | [] => raise NameError
  | (x, v) :: rest =>
      if decide (x = name) then mret v else load_name rest name
  end.

(** [format(v, '')] of a text attribute inside [str.format]. *)
Definition format_field (v : option pystr) : pystr :=
  match v with
  | Some s => s
  | None => u "None"
  end.

(** The loop over the chord spans of [__parse], started on the chords
    collected so far. *)
Fixpoint chord_loop (spans : list node) (chordlist : list pystr)
  : result (list pystr) :=
  match spans with
  | [] => mret chordlist
  | crd :: rest =>
      cname ← pop0 (split_ws (get_text crd));
      chord_loop rest
        (if bool_decide (cname ∈ chordlist) then chordlist
         else chordlist ++ [cname])
  end.

(** The unpacking [title, artist = [i.strip() for i in text.split('-', 1)]]
    with its [except ValueError] branch. *)
Definition split_header (text : pystr) : pystr * option pystr :=
  match strip <$> split1 hyphen text with
  | [title; artist] => (title, Some artist)
  | _ => (strip text, None)
  end.

(** The filters of [soup.h1], [soup.body] and
    [soup.findAll('span', {'class': 'chord'})]. *)
Definition is_h1 : node → bool := matches (u "h1") [].
Definition is_body : node → bool := matches (u "body") [].
Definition is_chord : node → bool :=
  matches (u "span") [(u "class", u "chord")].

(** [set.pop] takes no argument: called with one it raises before it
    touches the set. *)
Definition set_pop_with_argument (s : gset pystr) (arg : pystr)
  : result pystr :=
  raise TypeError.

(** The properties. *)
Definition markup (self : Song) : option pystr := _markup self.
Definition filename (self : Song) : option pystr := _filename self.
Definition artist (self : Song) : option pystr := _artist self.
Definition title (self : Song) : option pystr := _title self.
Definition chords (self : Song) : list pystr := _chords self.
Definition tags (self : Song) : gset pystr := _tags self.

(** The setters, each reading the name its body reads. *)
Definition markup_setter (content : option pystr) : method () :=
  v ← lift (load_name [("content"%string, content)] "content");
  assign set__markup v.

Definition filename_setter (path : option pystr) : method () :=
  v ← lift (load_name [("path"%string, path)] "path");
  assign set__filename v.

Definition artist_setter (value : option pystr) : method () :=
  v ← lift (load_name [("value"%string, value)] "artist");
  assign set__artist v.

Definition title_setter (value : option pystr) : method () :=
  v ← lift (load_name [("value"%string, value)] "value");
  assign set__title v.

Definition tags_setter (taglist : list pystr) : method () :=
  v ← lift (load_name [("taglist"%string, taglist)] "taglist");
  assign set__tags (list_to_set v).

(** [Song.tag], [Song.untag] and [Song.clear_tags]. *)
Definition tag (t : pystr) : method () :=
  ts ← read tags;
  if bool_decide (t ∉ ts) then
    ts ← read _tags; assign set__tags ({[t]} ∪ ts)
  else mret ().

Definition untag (t : pystr) : method () :=
  ts ← read _tags;
  if bool_decide (t ∈ ts) then
    ts ← read _tags; _ ← lift (set_pop_with_argument ts t); mret ()
  else mret ().

Definition clear_tags : method () := assign set__tags ∅.

(** [setattr(self, key, val)] for one keyword argument.  A property
    name runs the setter of the property, and [chords] is a property
    without a setter; the name of an instance attribute overwrites the
    attribute; a fresh name makes a new entry in the instance
    dictionary. *)
Definition setattr (kw : kwarg) : method () :=
  match kw with
  | kw_markup content => markup_setter content
  | kw_filename path => filename_setter path
  | kw_artist value => artist_setter value
  | kw_title value => title_setter value
  | kw_tags taglist => tags_setter taglist
  | kw_chords _ => lift (raise AttributeError)
  | kw_body value => assign set_body value
  | kw__markup value => assign set__markup value
  | kw__filename value => assign set__filename value
  | kw__title value => assign set__title value
  | kw__artist value => assign set__artist value
  | kw__chords value => assign set__chords value
  | kw__tags value => assign set__tags value
  | kw_other name value _ =>
      d ← read other; assign set_other (<[name := value]> d)
  end.

(** [for key, val in kwargs.items(): setattr(self, key, val)]. *)
Fixpoint apply_kwargs (kwargs : list kwarg) : method () :=
  match kwargs with
  | [] => mret ()
  | kw :: rest => setattr kw;; apply_kwargs rest
  end.

Section Song.

Variable E : Env.

(** [markdown.markdown(markup, extensions=[...])]. *)
Definition render (markup : option pystr) : result pystr :=
  match markup with
  | Some text => mret (markdown_markdown E text)
  | None => markdown_None E
  end.

(** [Song.__load]: the text of the file, or [None] when opening or
    reading raises [IOError]/[OSError] (one class in Python 3); the
    message printed in that case is not modelled. *)
Definition __load (sourcefile : pystr) : method () :=
  match codecs_read E sourcefile with
  | inr text => assign set__markup (Some text)
  | inl OSError => assign set__markup None
  | inl e => lift (raise e)
  end.

(** [Song.__parse]. *)
Definition __parse (markup : option pystr) : method () :=
  markup ← match markup with
           | None => read _markup
           | Some _ => mret markup
           end;
  raw_html ← lift (render markup);
  let sp := bs E raw_html in
  match extract is_h1 sp with
  | None => lift (raise AttributeError)
  | Some (hdr, sp) =>
      let '(title, artist) := split_header (get_text hdr) in
      (* hdr.decompose() destroys the detached heading; the tree is
         not touched *)
      chordlist ← lift (chord_loop (findAll is_chord sp) []);
      assign set__chords chordlist;;
      assign set__title (Some title);;
      assign set__artist artist;;
      match find is_body sp with
      | None => lift (raise AttributeError)
      | Some b =>
          assign set_body (Some (concat (map (node_str E) (contents b))))
      end
  end.

(** The body of [Song.__init__]. *)
Definition init_body (src : pystr) (kwargs : list kwarg) : method () :=
  (if os_path_exists E src then
     __load src;;
     assign set__filename (Some src)
   else
     assign set__markup (Some src));;
  assign set__filename (Some src);;
  m ← read _markup;
  __parse m;;
  assign set__tags ∅;;
  apply_kwargs kwargs;;
  f ← read _filename;
  match f with
  | None =>
      t ← read title;
      a ← read artist;
      assign set__filename
        (Some (str_lower E (format_field t ++ u "_-_" ++ format_field a)))
  | Some _ => mret ()
  end.

(** [Song(src, **kwargs)]: the object the call returns, or the exception
    it raises, in which case the caller gets no object. *)
Definition __init__ (src : pystr) (kwargs : list kwarg) : result Song :=
  match init_body src kwargs new_object with
  | (inl e, _) => inl e
  | (inr _, self) => inr self
  end.

End Song.

(** ** Specification-side notions *)

(** A text that is empty or all whitespace. *)
Definition blank (s : pystr) : Prop := Forall (fun c => isspace c = true) s.

#[global] Instance blank_dec (s : pystr) : Decision (blank s) :=
  Forall_dec (fun c => isspace c = true) s.

(** The text up to the first whitespace character. *)
Fixpoint until_space (s : pystr) : pystr :=
  match s with
  | [] => []
  | c :: s' => if isspace c then [] else c :: until_space s'
  end.

(** The first whitespace-delimited token of a text, when it has one. *)
Definition first_token (text : pystr) : option pystr :=
  match lstrip text with
  | [] => None
  | t => Some (until_space t)
  end.

(** Duplicates dropped, each element kept where it first occurs. *)
Fixpoint first_occurrences (l : list pystr) : list pystr :=
  match l with
  | [] => []
  | x :: l' => x :: filter (fun y => y ≠ x) (first_occurrences l')
  end.

(** The document as the sequence of its markup and text, in document
    order. *)
Inductive token : Type :=
  | StartTag (name : pystr) (attrs : list (pystr * list pystr))
  | EndTag (name : pystr)
  | Text (s : pystr)
  | CommentText (s : pystr).

Fixpoint node_tokens (n : node) : list token :=
  match n with
  | NavigableString s => [Text s]
  | Comment s => [CommentText s]
  | Tag x attrs cs =>
      StartTag x attrs :: concat (map node_tokens cs) ++ [EndTag x]
  end.

Definition soup_tokens (sp : soup) : list token :=
  concat (map node_tokens sp).

(** [after] is [before] with the tokens of [h] deleted at one place and
    nothing else changed. *)
Definition tokens_cut (before after : list token) (h : node) : Prop :=
  ∃ pre post, before = pre ++ node_tokens h ++ post ∧ after = pre ++ post.

(** The markup text the constructor parses for [src]: [src] itself when
    it is not the path of an existing file, the text read from the file
    when it is. *)
Definition markup_of (E : Env) (src text : pystr) : Prop :=
  (os_path_exists E src = false ∧ text = src)
  ∨ (os_path_exists E src = true ∧ codecs_read E src = inr text).

(** A keyword argument that names the file name, as the property
    [filename] or as the attribute [_filename]. *)
Definition names_filename (kw : kwarg) : Prop :=
  match kw with
  | kw_filename _ | kw__filename _ => True
  | _ => False
  end.



(** [hay] holds [needle] as a run of consecutive characters. *)
Definition contains (hay needle : pystr) : Prop :=
  ∃ l r, hay = l ++ needle ++ r.

(** A keyword argument whose [setattr] cannot succeed: [artist], whose
    setter reads an unbound name, and [chords], which has no setter. *)
Definition unsettable (kw : kwarg) : Prop :=
  match kw with
  | kw_artist _ | kw_chords _ => True
  | _ => False
  end.

(** What the constructor does after the keyword arguments: the file
    name is derived when [_filename] is [None]. *)
Definition finish (E : Env) (self : Song) : Song :=
  match _filename self with
  | None =>
      set__filename
        (Some (str_lower E (format_field (title self) ++ u "_-_"
                            ++ format_field (artist self))))
        self
  | Some _ => self
  end.

(** A character that is not whitespace. *)
Definition solid (c : N) : Prop := isspace c = false.

(** A text without whitespace at either end. *)
Definition trimmed (t : pystr) : Prop :=
  (∀ c, head t = Some c → solid c) ∧ (∀ c, last t = Some c → solid c).

(** The file name the constructor derives when [_filename] is [None]. *)
Definition derived_filename (E : Env) (self : Song) : pystr :=
  str_lower E (format_field (title self) ++ u "_-_"
               ++ format_field (artist self)).

(** ** A sample environment *)

(** [str.lower] on ASCII text. *)
Definition ascii_lower (s : pystr) : pystr :=
  map (fun c => if (65 <=? c) && (c <=? 90) then c + 32 else c) s.

(** A plain serializer: tags by name, strings as they are. *)
Fixpoint plain_str (n : node) : pystr :=
  match n with
  | NavigableString s => s
  | Comment s => u "<!--" ++ s ++ u "-->"
  | Tag x _ cs =>
      u "<" ++ x ++ u ">" ++ concat (map plain_str cs)
      ++ u "</" ++ x ++ u ">"
  end.

(** An environment without files whose reader yields the tree [t] for
    the rendered songsheet. *)
Definition env_of_tree (t : soup) : Env :=
  {| os_path_exists := fun _ => false;
     codecs_read := fun _ => raise OSError;
     markdown_markdown := fun text => text;
     markdown_None := raise AttributeError;
     bs := fun _ => t;
     node_str := plain_str;
     str_lower := ascii_lower |}.

Definition chord_span (text : pystr) : node :=
  Tag (u "span") [(u "class", [u "chord"])] [NavigableString text].

Definition document (children : list node) : soup :=
  [Tag (u "html") [] [Tag (u "body") [] children]].

(** "# Let It Be - The Beatles" over one line of lyrics with two chords. *)
Definition let_it_be_markup : pystr :=
  u "# Let It Be - The Beatles" ++ [10; 10]
  ++ u "Let it (Am)be, let it (C)be" ++ [10].

Definition let_it_be : soup :=
  document
    [Tag (u "h1") [] [NavigableString (u "Let It Be - The Beatles")];
     NavigableString [10];
     Tag (u "p") []
       [NavigableString (u "Let it "); chord_span (u "Am");
        NavigableString (u "be, let it "); chord_span (u "C");
        NavigableString (u "be")]].

(** A heading without artist, and chords Am, C, Am, G, C, the first one
    followed by its fingering. *)
Definition five_chords_markup : pystr :=
  u "# Greensleeves" ++ [10; 10] ++ u "(Am x02210)(C)(Am)(G)(C)" ++ [10].

Definition five_chords : soup :=
  document
    [Tag (u "h1") [] [NavigableString (u " Greensleeves ")];
     Tag (u "p") []
       [chord_span (u "Am x02210"); chord_span (u "C");
        chord_span (u "Am"); chord_span (u "G"); chord_span (u "C")]].

(** No heading, and a chord span holding one space, written as inline
    HTML. *)
Definition blank_chord_no_heading_markup : pystr :=
  u "<span class='chord'> </span>".

Definition blank_chord_no_heading : soup :=
  document [Tag (u "p") [] [chord_span (u " ")]].

(** A heading, and a chord span holding one space after a good one. *)
Definition blank_chord_markup : pystr :=
  u "# Title - Artist" ++ [10; 10] ++ u "(Am)<span class='chord'> </span>".

Definition blank_chord : soup :=
  document
    [Tag (u "h1") [] [NavigableString (u "Title - Artist")];
     Tag (u "p") [] [chord_span (u "Am"); chord_span (u " ")]].

(** A chord span holding one space inside the heading, none elsewhere. *)
Definition blank_chord_in_heading_markup : pystr :=
  u "# Title <span class='chord'> </span>- Artist" ++ [10; 10]
  ++ u "la la la".

Definition blank_chord_in_heading : soup :=
  document
    [Tag (u "h1") []
       [NavigableString (u "Title "); chord_span (u " ");
        NavigableString (u "- Artist")];
     Tag (u "p") [] [NavigableString (u "la la la")]].

(** A heading whose text comes again in the lyrics. *)
Definition title_repeated_markup : pystr :=
  u "# Yesterday" ++ [10; 10] ++ u "Yesterday" ++ [10].

Definition title_repeated : soup :=
  document
    [Tag (u "h1") [] [NavigableString (u "Yesterday")];
     NavigableString [10];
     Tag (u "p") [] [NavigableString (u "Yesterday")]].

(** Two level-1 headings. *)
Definition two_headings_markup : pystr :=
  u "# Yesterday - The Beatles" ++ [10; 10] ++ u "# Chorus" ++ [10].

Definition two_headings : soup :=
  document
    [Tag (u "h1") [] [NavigableString (u "Yesterday - The Beatles")];
     NavigableString [10];
     Tag (u "h1") [] [NavigableString (u "Chorus")]].

(** No heading at all. *)
Definition no_heading_markup : pystr := u "la la la".

Definition no_heading : soup :=
  document [Tag (u "p") [] [NavigableString (u "la la la")]].

(** An environment with one file, at [path]: reading it gives [read];
    the renderer answers [none] to [None]. *)
Definition file_env (path : pystr) (read none : result pystr) (t : soup)
  : Env :=
  {| os_path_exists := fun p => bool_decide (p = path);
     codecs_read := fun _ => read;
     markdown_markdown := fun text => text;
     markdown_None := none;
     bs := fun _ => t;
     node_str := plain_str;
     str_lower := ascii_lower |}.

Definition songs_path : pystr := u "songs/let_it_be.udn".

(** A heading that ends in a hyphen. *)
Definition trailing_hyphen : soup :=
  document
    [Tag (u "h1") [] [NavigableString (u "Yesterday - ")];
     Tag (u "p") [] [NavigableString (u "la la la")]].

(** ** Text *)

Section Text.

Implicit Types (s t : pystr) (c : N).

Lemma lstrip_split s :
  ∃ l, s = l ++ lstrip s ∧ blank l.
Proof.
  induction s as [|c s [l [Hs Hl]]]; simpl.
  - exists []. split; [done | constructor].
  - destruct (isspace c) eqn:Hc.
    + exists (c :: l). split; [simpl; by rewrite <- Hs | by constructor].
    + exists []. split; [done | constructor].
Qed.

Lemma lstrip_head s c : head (lstrip s) = Some c → isspace c = false.
Proof.
  induction s as [|d s IH]; simpl; [done|].
  destruct (isspace d) eqn:Hd; [done|].
  simpl. by intros [= <-].
Qed.

Lemma lstrip_blank s : blank s ↔ lstrip s = [].
Proof.
  induction s as [|c s IH]; simpl.
  - split; [done | constructor].
  - destruct (isspace c) eqn:Hc.
    + rewrite <- IH. split; [by inversion 1 | by constructor].
    + split; [|done]. inversion 1; congruence.
Qed.

(** [strip] removes a blank prefix and a blank suffix, and what is left
    neither starts nor ends with whitespace. *)
Lemma strip_spec s :
  ∃ l r, s = l ++ strip s ++ r ∧ blank l ∧ blank r
         ∧ (∀ c, head (strip s) = Some c → isspace c = false)
         ∧ (∀ c, last (strip s) = Some c → isspace c = false).
Proof.
  unfold strip.
  destruct (lstrip_split s) as [l [Hs Hl]].
  destruct (lstrip_split (reverse (lstrip s))) as [r [Ht Hr]].
  set (m := lstrip (reverse (lstrip s))) in *.
  assert (Hmid : lstrip s = reverse m ++ reverse r).
  { rewrite <- reverse_app, <- Ht. by rewrite reverse_involutive. }
  exists l, (reverse r). repeat split.
  - by rewrite <- Hmid.
  - done.
  - unfold blank. by rewrite Forall_reverse.
  - intros c Hc. apply (lstrip_head s). rewrite Hmid.
    destruct (reverse m); [done|]. done.
  - intros c Hc. apply (lstrip_head (reverse (lstrip s))). fold m.
    rewrite <- (reverse_involutive m). by rewrite head_reverse.
Qed.

Lemma cut_at_Some c s a b :
  cut_at c s = Some (a, b) ↔ s = a ++ c :: b ∧ c ∉ a.
Proof.
  revert a. induction s as [|d s IH]; intros a; simpl.
  - split; [done|]. intros [H _]. by destruct a.
  - destruct (N.eqb_spec d c) as [->|Hne].
    + split.
      * intros [= <- <-]. split; [done | apply not_elem_of_nil].
      * intros [H Hni]. destruct a as [|x a]; simplify_eq/=; [done|].
        exfalso. apply Hni. by left.
    + destruct (cut_at c s) as [[a' b']|] eqn:Hcut.
      * split.
        -- intros [= <- <-]. destruct (proj1 (IH a') eq_refl) as [-> Hni].
           split; [done|]. rewrite elem_of_cons. naive_solver.
        -- intros [H Hni]. destruct a as [|x a]; simplify_eq/=.
           rewrite not_elem_of_cons in Hni. destruct Hni as [_ Hni].
           assert (Some (a', b') = Some (a, b)) as [= -> ->]; [|done].
           by apply IH.
      * split; [done|]. intros [H Hni].
        destruct a as [|x a]; simplify_eq/=.
        rewrite not_elem_of_cons in Hni. destruct Hni as [_ Hni].
        assert (None = Some (a, b)); [|done]. by apply IH.
Qed.

Lemma cut_at_None c s : cut_at c s = None ↔ c ∉ s.
Proof.
  induction s as [|d s IH]; simpl.
  - split; [intros _; apply not_elem_of_nil | done].
  - rewrite not_elem_of_cons. destruct (N.eqb_spec d c) as [->|Hne].
    + naive_solver.
    + destruct (cut_at c s) as [[a b]|]; naive_solver.
Qed.

(** The header text with a hyphen: cut at the first one. *)
Lemma split_header_hyphen text :
  hyphen ∈ text →
  ∃ a b, text = a ++ hyphen :: b ∧ (hyphen ∉ a)
         ∧ split_header text = (strip a, Some (strip b)).
Proof.
  intros Hin. unfold split_header, split1.
  destruct (cut_at hyphen text) as [[a b]|] eqn:Hcut.
  - apply cut_at_Some in Hcut as [-> Hni]. by exists a, b.
  - apply cut_at_None in Hcut. done.
Qed.

(** The header text without a hyphen: no artist. *)
Lemma split_header_plain text :
  hyphen ∉ text → split_header text = (strip text, None).
Proof.
  intros Hni. unfold split_header, split1.
  by rewrite (proj2 (cut_at_None hyphen text) Hni).
Qed.

Lemma split_ws_from_head cur s :
  cur ≠ [] →
  head (split_ws_from cur s) = Some (reverse cur ++ until_space s).
Proof.
  revert cur. induction s as [|c s IH]; intros cur Hcur; simpl.
  - destruct cur; [done|]. simpl. by rewrite app_nil_r.
  - destruct (isspace c).
    + destruct cur; [done|]. simpl. by rewrite app_nil_r.
    + rewrite IH; [|done]. by rewrite reverse_cons, <- app_assoc.
Qed.

(** [text.split()] starts with the first token of [text]. *)
Lemma split_ws_head text : head (split_ws text) = first_token text.
Proof.
  unfold split_ws, first_token.
  induction text as [|c s IH]; simpl; [done|].
  destruct (isspace c) eqn:Hc; [done|].
  rewrite split_ws_from_head; [|done]. simpl. by rewrite Hc.
Qed.

(** [text.split().pop(0)]: the first token, [IndexError] without one. *)
Lemma pop0_split_ws text :
  pop0 (split_ws text) =
  match first_token text with
  | Some name => inr name
  | None => raise IndexError
  end.
Proof.
  rewrite <- split_ws_head. by destruct (split_ws text).
Qed.

(** A text has no token exactly when it is empty or all whitespace. *)
Lemma first_token_None text : first_token text = None ↔ blank text.
Proof.
  rewrite lstrip_blank. unfold first_token.
  by destruct (lstrip text).
Qed.

Lemma split_ws_from_tokens cur s :
  Forall (fun c => isspace c = false) cur →
  Forall (fun t => t ≠ [] ∧ Forall (fun c => isspace c = false) t)
         (split_ws_from cur s)
  ∧ concat (split_ws_from cur s)
    = reverse cur ++ filter (fun c => isspace c = false) s.
Proof.
  revert cur. induction s as [|c s IH]; intros cur Hcur.
  - simpl. destruct cur as [|d cur]; [by split|]. split.
    + constructor; [|done]. split.
      * intros H%(f_equal length). rewrite length_reverse in H. done.
      * by apply Forall_reverse.
    + simpl. by rewrite !app_nil_r.
  - rewrite filter_cons. simpl. destruct (isspace c) eqn:Hc.
    + rewrite decide_False by done.
      destruct (IH [] (Forall_nil_2 _)) as [IH1 IH2].
      destruct cur as [|d cur]; [by split|]. split.
      * constructor; [|done]. split.
        -- intros H%(f_equal length). rewrite length_reverse in H. done.
        -- by apply Forall_reverse.
      * simpl. by rewrite IH2.
    + rewrite decide_True by done.
      destruct (IH (c :: cur)) as [IH1 IH2]; [by constructor|].
      split; [done|]. by rewrite IH2, reverse_cons, <- app_assoc.
Qed.

(** [text.split()]: the tokens are non-empty and free of whitespace,
    and together they are the text without its whitespace. *)
Lemma split_ws_tokens text :
  Forall (fun t => t ≠ [] ∧ Forall (fun c => isspace c = false) t)
         (split_ws text)
  ∧ concat (split_ws text) = filter (fun c => isspace c = false) text.
Proof. apply (split_ws_from_tokens [] text). constructor. Qed.

Example strip_title : strip ([160] ++ u " Let It Be  ") = u "Let It Be".
Proof. vm_compute. reflexivity. Qed.

Example split_ws_fingering :
  split_ws (u "  Am   x02210 ") = [u "Am"; u "x02210"].
Proof. vm_compute. reflexivity. Qed.

Example split1_header :
  split1 hyphen (u "Let It Be - The Beatles - Live")
  = [u "Let It Be "; u " The Beatles - Live"].
Proof. vm_compute. reflexivity. Qed.

End Text.

(** ** Trees *)

(** Induction on a node with the hypothesis for all its children. *)
Lemma node_children_ind (P : node → Prop) :
  (∀ s, P (NavigableString s)) →
  (∀ s, P (Comment s)) →
  (∀ x attrs cs, Forall P cs → P (Tag x attrs cs)) →
  ∀ n, P n.
Proof.
  intros Hs Hc Ht. fix IH 1. intros [s|s|x attrs cs].
  - apply Hs.
  - apply Hc.
  - apply Ht. induction cs as [|c cs IHcs]; constructor; [apply IH | done].
Qed.

Section Tree.

Variable p : node → bool.

Lemma find_node_unfold n :
  find_node p n =
  if p n then Some n else first_some (find_node p) (contents n).
Proof. by destruct n. Qed.

Lemma find_node_passes n h : find_node p n = Some h → p h = true.
Proof.
  revert h. induction n as [s|s|x attrs cs IH] using node_children_ind;
    intros h; rewrite find_node_unfold; destruct (p _) eqn:Hp;
    try (by intros [= <-]); try done.
  simpl. clear Hp. induction IH as [|c cs Hc _ IHcs]; simpl; [done|].
  destruct (find_node p c) eqn:Hf; [|done]. intros [= <-]. by apply Hc.
Qed.

(** What [find] returns passes the filter. *)
Lemma find_passes sp h : find p sp = Some h → p h = true.
Proof.
  unfold find. induction sp as [|c sp IH]; simpl; [done|].
  destruct (find_node p c) eqn:Hf; [|done].
  intros [= <-]. by eapply find_node_passes.
Qed.

Lemma extract_among_find l :
  Forall (fun n => fst <$> extract_below p n
                   = first_some (find_node p) (contents n)) l →
  fst <$> extract_among p (extract_below p) l = first_some (find_node p) l.
Proof.
  induction 1 as [|c l Hc _ IH]; simpl; [done|].
  rewrite find_node_unfold. destruct (p c); [done|].
  rewrite <- Hc. destruct (extract_below p c) as [[h c']|]; [done|].
  simpl. rewrite <- IH.
  by destruct (extract_among p (extract_below p) l) as [[h l']|].
Qed.

Lemma extract_below_find n :
  fst <$> extract_below p n = first_some (find_node p) (contents n).
Proof.
  induction n as [s|s|x attrs cs IH] using node_children_ind; try done.
  simpl. rewrite <- (extract_among_find cs IH).
  by destruct (extract_among p (extract_below p) cs) as [[h cs']|].
Qed.

(** The element [extract] detaches is the one [find] returns. *)
Lemma extract_find sp : fst <$> extract p sp = find p sp.
Proof.
  apply extract_among_find, Forall_forall. intros n _.
  apply extract_below_find.
Qed.

Lemma extract_Some_find sp h sp' :
  extract p sp = Some (h, sp') → find p sp = Some h.
Proof. intros H. by rewrite <- extract_find, H. Qed.

Lemma find_Some_extract sp h :
  find p sp = Some h → ∃ sp', extract p sp = Some (h, sp').
Proof.
  rewrite <- extract_find. destruct (extract p sp) as [[h' sp']|]; [|done].
  intros [= <-]. by exists sp'.
Qed.

Lemma extract_None_find sp : extract p sp = None ↔ find p sp = None.
Proof. rewrite <- extract_find. by destruct (extract p sp). Qed.

Lemma extract_among_tokens l h l' :
  Forall (fun n => ∀ h n', extract_below p n = Some (h, n') →
                   tokens_cut (node_tokens n) (node_tokens n') h) l →
  extract_among p (extract_below p) l = Some (h, l') →
  tokens_cut (soup_tokens l) (soup_tokens l') h.
Proof.
  intros Hl. revert l'. induction Hl as [|c l Hc _ IH]; intros l'; [done|].
  simpl. destruct (p c).
  { intros [= <- <-]. by exists [], (soup_tokens l). }
  destruct (extract_below p c) as [[h1 c']|] eqn:Hb.
  { intros [= <- <-]. destruct (Hc _ _ eq_refl) as (pre & post & H1 & H2).
    exists pre, (post ++ soup_tokens l). unfold soup_tokens. simpl.
    rewrite H1, H2. by rewrite <- !app_assoc. }
  destruct (extract_among p (extract_below p) l) as [[h1 l1]|]; [|done].
  intros [= <- <-]. destruct (IH _ eq_refl) as (pre & post & H1 & H2).
  exists (node_tokens c ++ pre), post. unfold soup_tokens in *. simpl.
  rewrite H1, H2. by rewrite <- !app_assoc.
Qed.

Lemma extract_below_tokens n h n' :
  extract_below p n = Some (h, n') →
  tokens_cut (node_tokens n) (node_tokens n') h.
Proof.
  revert h n'.
  induction n as [s|s|x attrs cs IH] using node_children_ind; try done.
  intros h n'. simpl.
  destruct (extract_among p (extract_below p) cs) as [[h1 cs']|] eqn:Ha;
    [|done].
  intros [= <- <-].
  destruct (extract_among_tokens cs _ _ IH Ha) as (pre & post & H1 & H2).
  exists (StartTag x attrs :: pre), (post ++ [EndTag x]). simpl.
  unfold soup_tokens in *. rewrite H1, H2. by rewrite <- !app_assoc.
Qed.

Lemma extract_tokens sp h sp' :
  extract p sp = Some (h, sp') →
  tokens_cut (soup_tokens sp) (soup_tokens sp') h.
Proof.
  apply extract_among_tokens, Forall_forall. intros n _ h' n'.
  apply extract_below_tokens.
Qed.

(** A filter that looks at the tag and its attributes only. *)
Hypothesis p_shallow :
  ∀ x attrs cs cs', p (Tag x attrs cs) = p (Tag x attrs cs').

Lemma extract_among_count l h l' :
  Forall (fun n => ∀ h n', extract_below p n = Some (h, n') →
                   length (find_all_node p n) =
                   (length (find_all_node p n')
                    + length (find_all_node p h))%nat) l →
  extract_among p (extract_below p) l = Some (h, l') →
  length (findAll p l) =
  (length (findAll p l') + length (find_all_node p h))%nat.
Proof.
  intros Hl. revert l'. induction Hl as [|c l Hc _ IH]; intros l'; [done|].
  unfold findAll in *. simpl. destruct (p c) eqn:Hp.
  { intros [= <- <-]. rewrite length_app. lia. }
  destruct (extract_below p c) as [[h1 c']|] eqn:Hb.
  { intros [= <- <-]. simpl. rewrite !length_app, (Hc _ _ eq_refl). lia. }
  destruct (extract_among p (extract_below p) l) as [[h1 l1]|]; [|done].
  intros [= <- <-]. simpl. rewrite !length_app, (IH _ eq_refl). lia.
Qed.

Lemma extract_below_count n h n' :
  extract_below p n = Some (h, n') →
  length (find_all_node p n) =
  (length (find_all_node p n') + length (find_all_node p h))%nat.
Proof.
  revert h n'.
  induction n as [s|s|x attrs cs IH] using node_children_ind; try done.
  intros h n'. simpl.
  destruct (extract_among p (extract_below p) cs) as [[h1 cs']|] eqn:Ha;
    [|done].
  intros [= <- <-]. simpl. rewrite (p_shallow x attrs cs cs').
  rewrite !length_app. fold (findAll p cs) (findAll p cs').
  rewrite (extract_among_count cs _ _ IH Ha).
  destruct (p (Tag x attrs cs')); simpl; lia.
Qed.

(** Detaching [h] takes away the matches inside [h], [h] included, and
    no other. *)
Lemma extract_count sp h sp' :
  extract p sp = Some (h, sp') →
  length (findAll p sp) =
  (length (findAll p sp') + length (find_all_node p h))%nat.
Proof.
  apply extract_among_count, Forall_forall. intros n _ h' n'.
  apply extract_below_count.
Qed.

Lemma find_all_node_self h :
  p h = true → (1 ≤ length (find_all_node p h))%nat.
Proof.
  intros Hp. destruct h; simpl; rewrite Hp; simpl; lia.
Qed.

End Tree.

Lemma matches_shallow name want x attrs cs cs' :
  matches name want (Tag x attrs cs) = matches name want (Tag x attrs cs').
Proof. done. Qed.

(** ** Order-preserving removal of duplicates *)

Section FirstOccurrences.

Implicit Types (l names acc : list pystr) (x : pystr).

Lemma filter_filter_comm (P Q : pystr → Prop)
    `{!∀ y, Decision (P y)} `{!∀ y, Decision (Q y)} l :
  filter P (filter Q l) = filter Q (filter P l).
Proof.
  rewrite !list_filter_filter. apply list_filter_iff. intros y. tauto.
Qed.

Lemma filter_always (P : pystr → Prop) `{!∀ y, Decision (P y)} l :
  (∀ y, P y) → filter P l = l.
Proof.
  intros HP. induction l as [|y l IH]; [done|].
  by rewrite filter_cons_True, IH.
Qed.

Lemma first_occurrences_filter (P : pystr → Prop)
    `{!∀ y, Decision (P y)} l :
  filter P (first_occurrences l) = first_occurrences (filter P l).
Proof.
  induction l as [|x l IH]; simpl; [done|].
  rewrite !filter_cons. destruct (decide (P x)) as [HP|HP]; simpl.
  - by rewrite <- IH, filter_filter_comm.
  - rewrite <- IH, list_filter_filter. apply list_filter_iff.
    intros y. split; [tauto|]. intros Hy. split; [done|]. by intros ->.
Qed.

Lemma first_occurrences_elem x l : x ∈ first_occurrences l ↔ x ∈ l.
Proof.
  induction l as [|y l IH]; simpl; [done|].
  rewrite !elem_of_cons, list_elem_of_filter, IH.
  destruct (decide (x = y)); tauto.
Qed.

Lemma first_occurrences_NoDup l : NoDup (first_occurrences l).
Proof.
  induction l as [|y l IH]; simpl; constructor.
  - rewrite list_elem_of_filter. tauto.
  - by apply NoDup_filter.
Qed.

Lemma first_occurrences_sublist l : first_occurrences l `sublist_of` l.
Proof.
  induction l as [|y l IH]; simpl; [done|].
  apply sublist_skip. etrans; [apply sublist_filter | done].
Qed.

Lemma first_occurrences_app l1 l2 :
  first_occurrences (l1 ++ l2) =
  first_occurrences l1 ++ filter (fun y => y ∉ l1) (first_occurrences l2).
Proof.
  induction l1 as [|x l1 IH]; simpl.
  - rewrite filter_always; [done|]. intros y. apply not_elem_of_nil.
  - rewrite IH, filter_app. f_equal. f_equal.
    rewrite list_filter_filter. apply list_filter_iff. intros y.
    rewrite not_elem_of_cons. tauto.
Qed.

(** Each name sits where it first occurs: after the distinct names that
    precede its first occurrence. *)
Lemma first_occurrences_position l1 x l2 :
  x ∉ l1 →
  first_occurrences (l1 ++ x :: l2) !! length (first_occurrences l1)
  = Some x.
Proof.
  intros Hx. rewrite first_occurrences_app. simpl.
  rewrite filter_cons_True; [|done]. by rewrite list_lookup_middle.
Qed.

(** The chord loop: it fails at the first span without a token, and
    otherwise appends to [acc] the new names, each once, in the order
    they first occur. *)
Lemma chord_loop_eq spans acc :
  chord_loop spans acc =
  match mapM (fun crd => first_token (get_text crd)) spans with
  | Some names =>
      inr (acc ++ first_occurrences (filter (fun y => y ∉ acc) names))
  | None => raise IndexError
  end.
Proof.
  revert acc. induction spans as [|crd rest IH]; intros acc; simpl.
  - by rewrite app_nil_r.
  - rewrite pop0_split_ws.
    destruct (first_token (get_text crd)) as [name|]; simpl; [|done].
    rewrite IH.
    destruct (mapM _ rest) as [names|]; simpl; [|done].
    f_equal. rewrite filter_cons. case_bool_decide as Hin.
    + by rewrite decide_False by tauto.
    + rewrite decide_True by done. simpl.
      rewrite <- app_assoc. simpl. do 2 f_equal.
      rewrite first_occurrences_filter, list_filter_filter. f_equal.
      apply list_filter_iff. intros y.
      rewrite not_elem_of_app, list_elem_of_singleton. tauto.
Qed.

Lemma chord_loop_nil spans :
  chord_loop spans [] =
  match mapM (fun crd => first_token (get_text crd)) spans with
  | Some names => inr (first_occurrences names)
  | None => raise IndexError
  end.
Proof.
  rewrite chord_loop_eq. destruct (mapM _ spans) as [names|]; [|done].
  simpl. rewrite filter_always; [done|]. intros y. apply not_elem_of_nil.
Qed.

End FirstOccurrences.

(** ** The parse step *)

Section Parse.

Variable E : Env.

(** The result of [__parse] on a text, step by step. *)
Lemma parse_eq (m : pystr) (self : Song) :
  __parse E (Some m) self =
  match extract is_h1 (bs E (markdown_markdown E m)) with
  | None => (raise AttributeError, self)
  | Some (hdr, sp) =>
      match chord_loop (findAll is_chord sp) [] with
      | inl e => (inl e, self)
      | inr chordlist =>
          let self' :=
            set__artist (split_header (get_text hdr)).2
              (set__title (Some (split_header (get_text hdr)).1)
                 (set__chords chordlist self)) in
          match find is_body sp with
          | None => (raise AttributeError, self')
          | Some b =>
              (inr (),
               set_body (Some (concat (map (node_str E) (contents b))))
                        self')
          end
      end
  end.
Proof.
  unfold __parse, mbind, method_bind, mret, method_ret, lift, assign. simpl.
  destruct (extract is_h1 _) as [[hdr sp]|]; [|done].
  destruct (split_header (get_text hdr)) as [t a]. simpl.
  destruct (chord_loop _ []) as [e|chordlist]; [done|].
  by destruct (find is_body sp).
Qed.

(** X1.  [__parse] returns exactly when the rendered output has a
    level-1 heading, every chord span left after its removal has a
    token, and the tree has a body. *)
Lemma parse_returns (m : pystr) (self : Song) :
  (∃ self', __parse E (Some m) self = (inr (), self')) ↔
  ∃ hdr sp, extract is_h1 (bs E (markdown_markdown E m)) = Some (hdr, sp)
            ∧ Forall (fun crd => ¬ blank (get_text crd))
                     (findAll is_chord sp)
            ∧ is_Some (find is_body sp).
Proof.
  rewrite parse_eq.
  destruct (extract is_h1 _) as [[hdr sp]|]; [|naive_solver].
  rewrite chord_loop_nil.
  destruct (mapM _ (findAll is_chord sp)) as [names|] eqn:Hm.
  - apply mapM_Some in Hm.
    assert (Forall (fun crd => ¬ blank (get_text crd)) (findAll is_chord sp)).
    { eapply Forall2_Forall_l; [exact Hm|]. apply Forall_true.
      intros name crd Ht Hb. apply first_token_None in Hb. congruence. }
    destruct (find is_body sp) as [b|] eqn:Hb.
    + split; [|intros _; by eexists]. intros _.
      exists hdr, sp. split; [done|]. split; [done|]. by exists b.
    + split; [by intros [? [=]]|].
      intros (? & ? & [= <- <-] & _ & [? Hs]). congruence.
  - split; [by intros [? [=]]|]. intros (? & ? & [= <- <-] & Hall & _).
    apply mapM_None in Hm. apply Exists_exists in Hm as (crd & Hin & Hcrd).
    rewrite Forall_forall in Hall. destruct (Hall _ Hin).
    by apply first_token_None.
Qed.

End Parse.

(** A chord-class span: a [span] tag with [chord] among the values of
    its [class] attribute. *)
Lemma is_chord_spec (n : node) :
  is_chord n = true ↔
  ∃ attrs cs classes,
    n = Tag (u "span") attrs cs
    ∧ attr_get (u "class") attrs = Some classes
    ∧ u "chord" ∈ classes.
Proof.
  unfold is_chord, matches. destruct n as [s|s|x attrs cs].
  - split; [done | by intros (? & ? & ? & [=] & _)].
  - split; [done | by intros (? & ? & ? & [=] & _)].
  - simpl. rewrite andb_true_r, andb_true_iff, bool_decide_eq_true.
    split.
    + intros [-> H]. destruct (attr_get _ attrs) as [vs|] eqn:Hg; [|done].
      apply bool_decide_eq_true in H. by exists attrs, cs, vs.
    + intros (? & ? & vs & [= -> -> ->] & Hg & Hin). split; [done|].
      rewrite Hg. by apply bool_decide_eq_true.
Qed.

(** ** Header: title and artist *)

(** C1.  When the rendered output has a level-1 heading and [__parse]
    returns: if the heading's text contains a hyphen, the title is the
    text before the first hyphen and the artist the text after it, both
    stripped of surrounding whitespace; if it contains none, the title
    is the whole text stripped and the artist is [None]. *)
Theorem parse_title_artist (E : Env) (m : pystr) (self s : Song)
    (hdr : node) :
  find is_h1 (bs E (markdown_markdown E m)) = Some hdr →
  __parse E (Some m) self = (inr (), s) →
  (hyphen ∈ get_text hdr →
   ∃ a b, get_text hdr = a ++ hyphen :: b ∧ (hyphen ∉ a)
          ∧ title s = Some (strip a) ∧ artist s = Some (strip b))
  ∧ (hyphen ∉ get_text hdr →
     title s = Some (strip (get_text hdr)) ∧ artist s = None).
Proof.
  intros Hfind Hparse. rewrite parse_eq in Hparse.
  apply find_Some_extract in Hfind as [sp Hex]. rewrite Hex in Hparse.
  destruct (chord_loop _ []) as [e|chordlist]; [done|].
  simpl in Hparse. destruct (find is_body sp) as [b|]; [|done].
  injection Hparse as <-. unfold title, artist. simpl. split.
  - intros Hin. destruct (split_header_hyphen _ Hin) as (a & b' & H1 & H2 & H3).
    exists a, b'. by rewrite H3.
  - intros Hni. by rewrite (split_header_plain _ Hni).
Qed.

Lemma parse_title_artist_witness :
  let E := env_of_tree let_it_be in
  let s := (__parse E (Some let_it_be_markup) new_object).2 in
  let text := u "Let It Be - The Beatles" in
  (hyphen ∈ text →
   ∃ a b, text = a ++ hyphen :: b ∧ (hyphen ∉ a)
          ∧ title s = Some (strip a) ∧ artist s = Some (strip b))
  ∧ (hyphen ∉ text → title s = Some (strip text) ∧ artist s = None).
Proof.
  intros E s text.
  apply (parse_title_artist E let_it_be_markup new_object s
           (Tag (u "h1") [] [NavigableString text])).
  - vm_compute. reflexivity.
  - vm_compute. reflexivity.
Defined.

(** The values on the sample songsheets. *)
Example let_it_be_title_artist :
  let s := (__parse (env_of_tree let_it_be) (Some let_it_be_markup)
              new_object).2 in
  title s = Some (u "Let It Be") ∧ artist s = Some (u "The Beatles").
Proof. vm_compute. done. Qed.

Example greensleeves_title_artist :
  let s := (__parse (env_of_tree five_chords) (Some five_chords_markup)
            new_object).2 in
  title s = Some (u "Greensleeves") ∧ artist s = None.
Proof. vm_compute. done. Qed.

(** ** Chords *)

(** C2.  When [__parse] returns, the chords are the first tokens of the
    texts of the chord spans of the tree without its heading, taken in
    document order, with duplicates dropped and each name kept where it
    first occurs: no name occurs twice and every name occurs. *)
Theorem parse_chords (E : Env) (m : pystr) (self s : Song) :
  __parse E (Some m) self = (inr (), s) →
  ∃ hdr sp names,
    extract is_h1 (bs E (markdown_markdown E m)) = Some (hdr, sp)
    ∧ Forall2 (fun crd name => first_token (get_text crd) = Some name)
              (findAll is_chord sp) names
    ∧ chords s = first_occurrences names
    ∧ NoDup (chords s)
    ∧ (∀ name, name ∈ chords s ↔ name ∈ names).
Proof.
  intros Hparse. rewrite parse_eq in Hparse.
  destruct (extract is_h1 _) as [[hdr sp]|]; [|done].
  rewrite chord_loop_nil in Hparse.
  destruct (mapM _ (findAll is_chord sp)) as [names|] eqn:Hm; [|done].
  simpl in Hparse. destruct (find is_body sp) as [b|]; [|done].
  injection Hparse as <-. exists hdr, sp, names. unfold chords. simpl.
  split; [done|]. split; [by apply mapM_Some|]. split; [done|].
  split; [apply first_occurrences_NoDup|].
  intros name. apply first_occurrences_elem.
Qed.

Lemma parse_chords_witness :
  let E := env_of_tree five_chords in
  let s := (__parse E (Some five_chords_markup) new_object).2 in
  ∃ hdr sp names,
    extract is_h1 (bs E (markdown_markdown E five_chords_markup))
    = Some (hdr, sp)
    ∧ Forall2 (fun crd name => first_token (get_text crd) = Some name)
              (findAll is_chord sp) names
    ∧ chords s = first_occurrences names
    ∧ NoDup (chords s)
    ∧ (∀ name, name ∈ chords s ↔ name ∈ names).
Proof.
  intros E s. apply (parse_chords E five_chords_markup new_object s).
  vm_compute. reflexivity.
Defined.

(** Spans Am, C, Am, G, C give Am, C, G, and the span "Am x02210" gives
    the name Am only. *)
Example five_chords_chords :
  chords (__parse (env_of_tree five_chords) (Some five_chords_markup)
            new_object).2
  = [u "Am"; u "C"; u "G"].
Proof. vm_compute. reflexivity. Qed.

Example first_token_fingering : first_token (u "Am x02210") = Some (u "Am").
Proof. vm_compute. reflexivity. Qed.

Example first_occurrences_five :
  first_occurrences [u "Am"; u "C"; u "Am"; u "G"; u "C"]
  = [u "Am"; u "C"; u "G"].
Proof. vm_compute. reflexivity. Qed.

(** ** Body *)

Section Descendants.

Variables p q : node → bool.

Lemma find_all_node_contents n k :
  k ∈ findAll p (contents n) → k ∈ find_all_node p n.
Proof.
  destruct n as [s|s|x attrs cs]; simpl; try by intros ?%elem_of_nil.
  intros Hk. apply elem_of_app. by right.
Qed.

Lemma find_node_below n b k :
  find_node q n = Some b →
  k ∈ findAll p (contents b) → k ∈ find_all_node p n.
Proof.
  revert b. induction n as [s|s|x attrs cs IH] using node_children_ind;
    intros b; rewrite find_node_unfold; destruct (q _);
    try (intros [= <-]; apply find_all_node_contents); try done.
  simpl. intros Hf Hk. apply elem_of_app. right.
  induction IH as [|c cs Hc _ IHcs]; simpl in *; [done|].
  apply elem_of_app. destruct (find_node q c) eqn:Hq.
  - left. injection Hf as ->. by eapply Hc.
  - right. by apply IHcs.
Qed.

(** What lies below an element found in the tree lies in the tree. *)
Lemma find_below sp b k :
  find q sp = Some b → k ∈ findAll p (contents b) → k ∈ findAll p sp.
Proof.
  unfold find, findAll at 2. intros Hf Hk.
  induction sp as [|c sp IH]; simpl in *; [done|].
  apply elem_of_app. destruct (find_node q c) eqn:Hq.
  - left. injection Hf as ->. by eapply find_node_below.
  - right. by apply IH.
Qed.

End Descendants.

(** C3, as amended.  When [__parse] returns, the body is the
    concatenation, in order and with nothing in between, of the string
    forms of the children of the [body] element of the tree the first
    level-1 heading was detached from.  That tree is the rendered one
    with the tokens of that heading deleted at their place and nothing
    else changed: it keeps the level-1 headings outside the detached
    one, and when the rendered output has a single level-1 heading, none
    is left in the tree, nor among or below the serialized children. *)
Theorem parse_body (E : Env) (m : pystr) (self s : Song) :
  __parse E (Some m) self = (inr (), s) →
  let rendered := bs E (markdown_markdown E m) in
  ∃ hdr sp b,
    find is_h1 rendered = Some hdr
    ∧ extract is_h1 rendered = Some (hdr, sp)
    ∧ tokens_cut (soup_tokens rendered) (soup_tokens sp) hdr
    ∧ find is_body sp = Some b
    ∧ body s = Some (concat (map (node_str E) (contents b)))
    ∧ length (findAll is_h1 rendered)
      = (length (findAll is_h1 sp) + length (find_all_node is_h1 hdr))%nat
    ∧ (length (findAll is_h1 rendered) = 1%nat →
       findAll is_h1 sp = [] ∧ findAll is_h1 (contents b) = []).
Proof.
  intros Hparse rendered. rewrite parse_eq in Hparse. fold rendered in Hparse.
  destruct (extract is_h1 rendered) as [[hdr sp]|] eqn:Hex; [|done].
  destruct (chord_loop _ []) as [e|chordlist]; [done|].
  simpl in Hparse. destruct (find is_body sp) as [b|] eqn:Hb; [|done].
  injection Hparse as <-. exists hdr, sp, b. simpl.
  split; [exact (extract_Some_find _ _ _ _ Hex)|]. split; [done|].
  split; [exact (extract_tokens _ _ _ _ Hex)|]. split; [done|]. split; [done|].
  pose proof (extract_count is_h1 (matches_shallow _ _) _ _ _ Hex) as Hc.
  split; [done|]. intros Hone.
  assert (Hsp : findAll is_h1 sp = []).
  { pose proof (find_all_node_self is_h1 hdr
                  (find_passes _ _ _ (extract_Some_find _ _ _ _ Hex))).
    apply length_zero_iff_nil. lia. }
  split; [done|].
  apply elem_of_nil_inv. intros k Hk.
  apply (find_below is_h1 is_body sp b k Hb) in Hk.
  rewrite Hsp in Hk. by apply elem_of_nil in Hk.
Qed.

Lemma parse_body_witness :
  let E := env_of_tree let_it_be in
  let s := (__parse E (Some let_it_be_markup) new_object).2 in
  let rendered := bs E (markdown_markdown E let_it_be_markup) in
  ∃ hdr sp b,
    find is_h1 rendered = Some hdr
    ∧ extract is_h1 rendered = Some (hdr, sp)
    ∧ tokens_cut (soup_tokens rendered) (soup_tokens sp) hdr
    ∧ find is_body sp = Some b
    ∧ body s = Some (concat (map (node_str E) (contents b)))
    ∧ length (findAll is_h1 rendered)
      = (length (findAll is_h1 sp) + length (find_all_node is_h1 hdr))%nat
    ∧ (length (findAll is_h1 rendered) = 1%nat →
       findAll is_h1 sp = [] ∧ findAll is_h1 (contents b) = []).
Proof.
  intros E s. apply (parse_body E let_it_be_markup new_object s).
  vm_compute. reflexivity.
Defined.

(** The heading's text stays in the body where the lyrics repeat it. *)
Example title_repeated_body :
  let s := (__parse (env_of_tree title_repeated)
              (Some title_repeated_markup) new_object).2 in
  title s = Some (u "Yesterday")
  ∧ body s = Some ([10] ++ u "<p>Yesterday</p>").
Proof. vm_compute. done. Qed.

(** A second level-1 heading stays in the body, markup and text. *)
Example two_headings_body :
  let s := (__parse (env_of_tree two_headings)
              (Some two_headings_markup) new_object).2 in
  title s = Some (u "Yesterday")
  ∧ body s = Some ([10] ++ u "<h1>Chorus</h1>").
Proof. vm_compute. done. Qed.

(** C3, as stated, fails: the body of a parsed markup can contain the
    text of the heading. *)
Lemma body_can_contain_header_text :
  ¬ (∀ (E : Env) (m : pystr) (self s : Song) (hdr : node) (b : pystr),
       find is_h1 (bs E (markdown_markdown E m)) = Some hdr →
       __parse E (Some m) self = (inr (), s) →
       body s = Some b →
       ¬ contains b (get_text hdr)).
Proof.
  intros H.
  apply (H (env_of_tree title_repeated) title_repeated_markup new_object
           (__parse (env_of_tree title_repeated)
              (Some title_repeated_markup) new_object).2
           (Tag (u "h1") [] [NavigableString (u "Yesterday")])
           ([10] ++ u "<p>Yesterday</p>")).
  - vm_compute. reflexivity.
  - vm_compute. reflexivity.
  - vm_compute. reflexivity.
  - exists ([10] ++ u "<p>"), (u "</p>"). vm_compute. reflexivity.
Qed.

Example let_it_be_body :
  body (__parse (env_of_tree let_it_be) (Some let_it_be_markup)
          new_object).2
  = Some ([10] ++ u "<p>Let it <span>Am</span>be, let it <span>C</span>be</p>").
Proof. vm_compute. reflexivity. Qed.

(** ** The constructor *)

Section Init.

Variable E : Env.

(** [__parse] touches only the chords, the title, the artist and the
    body, whether it returns or raises. *)
Lemma parse_keeps (mk : option pystr) (self s : Song) (r : result ()) :
  __parse E mk self = (r, s) →
  _markup s = _markup self ∧ _filename s = _filename self
  ∧ _tags s = _tags self ∧ other s = other self.
Proof.
  unfold __parse, mbind, method_bind, mret, method_ret, lift, assign, read.
  intros H. by repeat (case_match; simplify_eq/=).
Qed.

(** The constructor, step by step. *)
Lemma init_unfold (src : pystr) (kwargs : list kwarg) :
  __init__ E src kwargs =
  match (if os_path_exists E src then __load E src new_object
         else (inr (), set__markup (Some src) new_object))
  with
  | (inl e, _) => inl e
  | (inr _, s0) =>
      match __parse E (_markup s0) (set__filename (Some src) s0) with
      | (inl e, _) => inl e
      | (inr _, s1) =>
          match apply_kwargs kwargs (set__tags ∅ s1) with
          | (inl e, _) => inl e
          | (inr _, s2) =>
              inr (match _filename s2 with
                   | None => set__filename (Some (derived_filename E s2)) s2
                   | Some _ => s2
                   end)
          end
      end
  end.
Proof.
  unfold __init__, init_body.
  unfold mbind, method_bind, mret, method_ret, assign, read.
  destruct (os_path_exists E src).
  - destruct (__load E src new_object) as [[e|[]] s0]; [done|]. simpl.
    destruct (__parse E _ _) as [[e|[]] s1]; [done|].
    destruct (apply_kwargs kwargs _) as [[e|[]] s2]; [done|].
    by destruct (_filename s2).
  - simpl.
    destruct (__parse E _ _) as [[e|[]] s1]; [done|].
    destruct (apply_kwargs kwargs _) as [[e|[]] s2]; [done|].
    by destruct (_filename s2).
Qed.

(** The constructor on a source whose markup text is [text]. *)
Lemma init_eq (src text : pystr) (kwargs : list kwarg) :
  markup_of E src text →
  __init__ E src kwargs =
  match __parse E (Some text)
          (set__filename (Some src) (set__markup (Some text) new_object))
  with
  | (inl e, _) => inl e
  | (inr _, self) =>
      match apply_kwargs kwargs (set__tags ∅ self) with
      | (inl e, _) => inl e
      | (inr _, self) =>
          inr (match _filename self with
               | None => set__filename (Some (derived_filename E self)) self
               | Some _ => self
               end)
      end
  end.
Proof.
  rewrite init_unfold. unfold __load.
  by intros [[Hex ->]|[Hex Hread]]; rewrite Hex; [|rewrite Hread].
Qed.

End Init.

(** ** Missing heading *)

(** C4.  When the rendered output has no level-1 heading, [__parse]
    raises (the [AttributeError] of [soup.h1.extract()] on [None], the
    failure the specification calls MalformedInput) and leaves the
    object as it was; the constructor raises the same exception to its
    caller, whatever the keyword arguments, and returns no object. *)
Theorem parse_no_heading (E : Env) (m : pystr) :
  find is_h1 (bs E (markdown_markdown E m)) = None →
  (∀ self, __parse E (Some m) self = (raise AttributeError, self))
  ∧ (∀ src kwargs, markup_of E src m →
       __init__ E src kwargs = raise AttributeError).
Proof.
  intros Hnone. apply extract_None_find in Hnone.
  assert (Hp : ∀ self,
             __parse E (Some m) self = (raise AttributeError, self)).
  { intros self. by rewrite parse_eq, Hnone. }
  split; [done|]. intros src kwargs Hm.
  by rewrite (init_eq E src m kwargs Hm), Hp.
Qed.

Lemma parse_no_heading_witness :
  let E := env_of_tree no_heading in
  let m := no_heading_markup in
  (∀ self, __parse E (Some m) self = (raise AttributeError, self))
  ∧ (∀ src kwargs, markup_of E src m →
       __init__ E src kwargs = raise AttributeError).
Proof.
  intros E m. apply (parse_no_heading E m). vm_compute. reflexivity.
Defined.

Example no_heading_constructor :
  __init__ (env_of_tree no_heading) no_heading_markup []
  = raise AttributeError.
Proof. vm_compute. reflexivity. Qed.

(** ** Chord spans without a name *)

Section BlankChord.

Variable E : Env.

(** C10, as amended.  When the rendered output has a level-1 heading
    and the tree it was detached from has a chord span whose text is
    empty or all whitespace, [__parse] raises [IndexError] and leaves
    the object as it was, and the constructor raises [IndexError] to
    its caller. *)
Theorem parse_blank_chord (m : pystr) (hdr : node) (sp : soup) :
  extract is_h1 (bs E (markdown_markdown E m)) = Some (hdr, sp) →
  Exists (fun crd => blank (get_text crd)) (findAll is_chord sp) →
  (∀ self, __parse E (Some m) self = (raise IndexError, self))
  ∧ (∀ src kwargs, markup_of E src m →
       __init__ E src kwargs = raise IndexError).
Proof.
  intros Hex Hblank.
  assert (Hp : ∀ self, __parse E (Some m) self = (raise IndexError, self)).
  { intros self. rewrite parse_eq, Hex, chord_loop_nil.
    rewrite (proj2 (mapM_None _ _)); [done|].
    eapply Exists_impl; [exact Hblank|].
    intros crd Hb. by apply first_token_None. }
  split; [done|]. intros src kwargs Hm.
  by rewrite (init_eq E src m kwargs Hm), Hp.
Qed.

End BlankChord.

Lemma parse_blank_chord_witness :
  let E := env_of_tree blank_chord in
  let m := blank_chord_markup in
  (∀ self, __parse E (Some m) self = (raise IndexError, self))
  ∧ (∀ src kwargs, markup_of E src m →
       __init__ E src kwargs = raise IndexError).
Proof.
  intros E m.
  apply (parse_blank_chord E m
           (Tag (u "h1") [] [NavigableString (u "Title - Artist")])
           (document [Tag (u "p") []
                        [chord_span (u "Am"); chord_span (u " ")]])).
  - vm_compute. reflexivity.
  - apply (bool_decide_unpack _). vm_compute. exact I.
Defined.

(** Without a heading the blank chord span is never reached. *)
Example blank_chord_no_heading_outcome :
  Exists (fun crd => blank (get_text crd))
         (findAll is_chord blank_chord_no_heading)
  ∧ __parse (env_of_tree blank_chord_no_heading)
      (Some blank_chord_no_heading_markup) new_object
    = (raise AttributeError, new_object).
Proof.
  split; [apply (bool_decide_unpack _)|]; vm_compute; done.
Qed.

(** A blank chord span inside the heading leaves with the heading. *)
Example blank_chord_in_heading_outcome :
  Exists (fun crd => blank (get_text crd))
         (findAll is_chord blank_chord_in_heading)
  ∧ (__parse (env_of_tree blank_chord_in_heading)
       (Some blank_chord_in_heading_markup) new_object).1
    = inr ().
Proof.
  split; [apply (bool_decide_unpack _)|]; vm_compute; done.
Qed.

(** C10, as stated, fails: a blank chord span in the rendered output
    does not always make [__parse] raise [IndexError]. *)
Lemma blank_chord_not_always_IndexError :
  ¬ (∀ (E : Env) (m : pystr) (self : Song),
       Exists (fun crd => blank (get_text crd))
              (findAll is_chord (bs E (markdown_markdown E m))) →
       (__parse E (Some m) self).1 = raise IndexError).
Proof.
  intros H.
  specialize (H (env_of_tree blank_chord_in_heading)
                blank_chord_in_heading_markup new_object).
  assert (Hblank : Exists (fun crd => blank (get_text crd))
                     (findAll is_chord blank_chord_in_heading)).
  { apply (bool_decide_unpack _). vm_compute. exact I. }
  specialize (H Hblank). vm_compute in H. discriminate H.
Qed.

(** ** Round trip *)

(** C5.  A Song constructed from a text [M] that is not the path of an
    existing file stores [M] as its markup, and a second Song
    constructed from the stored markup has the same title, artist,
    chords and body. *)
Theorem markup_roundtrip (E : Env) (M : pystr) (s : Song) :
  os_path_exists E M = false →
  __init__ E M [] = inr s →
  markup s = Some M
  ∧ ∀ M', markup s = Some M' →
      ∃ s', __init__ E M' [] = inr s'
            ∧ title s' = title s ∧ artist s' = artist s
            ∧ chords s' = chords s ∧ body s' = body s.
Proof.
  intros Hex Hinit.
  assert (Hm : markup s = Some M).
  { rewrite (init_eq E M M []) in Hinit by (by left).
    destruct (__parse E (Some M) _) as [[e|[]] self] eqn:Hp; [done|].
    apply parse_keeps in Hp as (Hmk & Hfn & _). simpl in *.
    rewrite Hfn in Hinit. injection Hinit as <-. done. }
  split; [done|]. intros M' HM'. rewrite Hm in HM'. injection HM' as <-.
  by exists s.
Qed.

Lemma markup_roundtrip_witness :
  let E := env_of_tree let_it_be in
  let M := let_it_be_markup in
  ∃ s, __init__ E M [] = inr s
       ∧ markup s = Some M
       ∧ ∀ M', markup s = Some M' →
           ∃ s', __init__ E M' [] = inr s'
                 ∧ title s' = title s ∧ artist s' = artist s
                 ∧ chords s' = chords s ∧ body s' = body s.
Proof.
  intros E M.
  destruct (__init__ E M []) as [e|s] eqn:Hinit.
  - vm_compute in Hinit. discriminate Hinit.
  - exists s. split; [reflexivity|].
    apply (markup_roundtrip E M s); [reflexivity | exact Hinit].
Defined.

(** ** File name *)

Lemma setattr_keeps_filename (kw : kwarg) (self s : Song) (r : result ()) :
  ¬ names_filename kw → setattr kw self = (r, s) →
  _filename s = _filename self.
Proof.
  destruct kw; simpl; try tauto; intros _;
    by (vm_compute; intros [= <- <-]).
Qed.

Lemma apply_kwargs_keeps_filename (kwargs : list kwarg) (self s : Song)
    (r : result ()) :
  Forall (fun kw => ¬ names_filename kw) kwargs →
  apply_kwargs kwargs self = (r, s) → _filename s = _filename self.
Proof.
  intros Hall. revert self. induction Hall as [|kw rest Hkw _ IH]; intros self.
  - by intros [= <- <-].
  - simpl. unfold mbind, method_bind.
    destruct (setattr kw self) as [[e|[]] self'] eqn:Hset.
    + intros [= <- <-]. by eapply setattr_keeps_filename.
    + intros Hrest. rewrite (IH _ Hrest). by eapply setattr_keeps_filename.
Qed.

(** Unless a keyword argument names [filename], the constructor leaves
    in [filename] the [src] it was given, path or markup text. *)
Lemma init_filename_is_src (E : Env) (src : pystr) (kwargs : list kwarg)
    (s : Song) :
  Forall (fun kw => ¬ names_filename kw) kwargs →
  __init__ E src kwargs = inr s → filename s = Some src.
Proof.
  intros Hall. rewrite init_unfold. unfold filename.
  destruct (if os_path_exists E src then _ else _) as [[e|[]] s0]; [done|].
  destruct (__parse E _ _) as [[e|[]] s1] eqn:Hp; [done|].
  apply parse_keeps in Hp as (_ & Hfn & _). simpl in Hfn.
  destruct (apply_kwargs kwargs _) as [[e|[]] s2] eqn:Hk; [done|].
  apply (apply_kwargs_keeps_filename _ _ _ _ Hall) in Hk. simpl in Hk.
  rewrite Hk, Hfn. intros [= <-]. by rewrite Hk.
Qed.

(** C6, on the sample songsheet: the Song is constructed from markup
    text, without keyword arguments; its file name is the markup text
    and not the lowercased "title_-_artist". *)
Theorem filename_not_derived :
  let E := env_of_tree let_it_be in
  ∃ s, __init__ E let_it_be_markup [] = inr s
       ∧ filename s = Some let_it_be_markup
       ∧ derived_filename E s = u "let it be_-_the beatles"
       ∧ filename s ≠ Some (derived_filename E s).
Proof.
  intros E. destruct (__init__ E let_it_be_markup []) as [e|s] eqn:Hinit.
  - vm_compute in Hinit. discriminate Hinit.
  - exists s. split; [done|].
    assert (Hf : filename s = Some let_it_be_markup).
    { by apply (init_filename_is_src E _ [] s). }
    assert (Hd : derived_filename E s = u "let it be_-_the beatles").
    { vm_compute in Hinit. injection Hinit as <-. vm_compute. done. }
    split; [done|]. split; [done|]. rewrite Hf, Hd. vm_compute. by intros [=].
Qed.

(** The derivation runs only when [filename=None] is passed. *)
Example filename_derived_on_request :
  match __init__ (env_of_tree let_it_be) let_it_be_markup
          [kw_filename None] with
  | inr s => filename s
  | inl _ => None
  end = Some (u "let it be_-_the beatles").
Proof. vm_compute. reflexivity. Qed.

(** ** Setters *)

(** C7 fails on the code: the artist setter raises [NameError] on every
    object and every value, and the artist stays what it was. *)
Theorem artist_setter_raises (self : Song) (v : option pystr) :
  artist_setter v self = (raise NameError, self)
  ∧ artist (artist_setter v self).2 = artist self.
Proof.
  assert (Hname : load_name [("value"%string, v)] "artist"
                  = raise NameError).
  { unfold load_name. by rewrite decide_False. }
  unfold artist_setter, mbind, method_bind, lift. by rewrite Hname.
Qed.

(** The title setter, next to it, stores the value. *)
Lemma title_setter_sets (self : Song) (v : option pystr) :
  ∃ s, title_setter v self = (inr (), s) ∧ title s = v.
Proof. by eexists. Qed.

(** An [artist] keyword argument makes the constructor raise. *)
Example artist_keyword_raises :
  __init__ (env_of_tree let_it_be) let_it_be_markup
    [kw_artist (Some (u "Beatles"))]
  = raise NameError.
Proof. vm_compute. reflexivity. Qed.

(** ** Tags *)

(** C8.  [untag] of a tag the Song does not have returns and leaves the
    object, its tags included, as it was. *)
Theorem untag_absent (self : Song) (t : pystr) :
  t ∉ tags self → untag t self = (inr (), self).
Proof.
  intros Hni. unfold untag, mbind, method_bind, read.
  by rewrite bool_decide_eq_false_2.
Qed.

Lemma untag_absent_witness :
  untag (u "x") new_object = (inr (), new_object).
Proof.
  apply (untag_absent new_object (u "x")). simpl. apply not_elem_of_empty.
Defined.

(** C9.  [untag] of a tag the Song has raises [TypeError] and leaves the
    object as it was: the tag is still there. *)
Theorem untag_present (self : Song) (t : pystr) :
  t ∈ tags self →
  untag t self = (raise TypeError, self) ∧ t ∈ tags (untag t self).2.
Proof.
  intros Hin. unfold untag, mbind, method_bind, read.
  by rewrite bool_decide_eq_true_2.
Qed.

Lemma untag_present_witness :
  let s := (tag (u "x") new_object).2 in
  untag (u "x") s = (raise TypeError, s) ∧ u "x" ∈ tags (untag (u "x") s).2.
Proof.
  intros s. apply (untag_present s (u "x")).
  apply (bool_decide_unpack _). vm_compute. exact I.
Defined.

(** X15.  [tag] twice is [tag] once: the second call returns without a
    change, and after the first the tags are the old ones and the new
    one. *)
Lemma tag_idempotent (self : Song) (t : pystr) :
  let s := (tag t self).2 in
  tag t s = (inr (), s) ∧ tags s = {[t]} ∪ tags self.
Proof.
  unfold tag, mbind, method_bind, read, assign, tags. simpl.
  destruct (decide (t ∈ _tags self)) as [Hin|Hni].
  - rewrite (bool_decide_eq_false_2 (t ∉ _tags self)) by tauto. simpl.
    rewrite (bool_decide_eq_false_2 (t ∉ _tags self)) by tauto.
    split; [done|]. apply set_eq. intros x.
    rewrite elem_of_union, elem_of_singleton. naive_solver.
  - rewrite (bool_decide_eq_true_2 (t ∉ _tags self)) by done. simpl.
    rewrite bool_decide_eq_false_2; [done|].
    intros H. apply H, elem_of_union_l. by apply elem_of_singleton.
Qed.

(** ** Outcomes of the parse step *)

Section ParseOutcomes.

Variable E : Env.

(** What [__parse] leaves in the object when it returns, whatever the
    markup it was handed. *)
Lemma parse_result (mk : option pystr) (self s : Song) :
  __parse E mk self = (inr (), s) →
  ∃ hdr sp chordlist b,
    chord_loop (findAll is_chord sp) [] = inr chordlist
    ∧ s = set_body (Some (concat (map (node_str E) (contents b))))
            (set__artist (split_header (get_text hdr)).2
               (set__title (Some (split_header (get_text hdr)).1)
                  (set__chords chordlist self))).
Proof.
  unfold __parse, mbind, method_bind, mret, method_ret, lift, assign, read.
  intros H. repeat (case_match; simplify_eq/=).
  all: eexists _, _, _, _; split; [eassumption|].
  all: match goal with
       | Hs : split_header _ = _ |- _ => by rewrite Hs
       end.
Qed.

(** X2.  On a markup text, [__parse] raises nothing but
    [AttributeError], when the rendered output has no level-1 heading
    or the tree has no [body] element, and [IndexError], when a chord
    span left after the heading's removal has an empty or blank text;
    on [IndexError] the object is as it was. *)
Theorem parse_raises_only (m : pystr) (self s : Song) (e : exn) :
  __parse E (Some m) self = (inl e, s) →
  let rendered := bs E (markdown_markdown E m) in
  (e = AttributeError
   ∧ (find is_h1 rendered = None
      ∨ ∃ hdr sp, extract is_h1 rendered = Some (hdr, sp)
                  ∧ find is_body sp = None))
  ∨ (e = IndexError ∧ s = self
     ∧ ∃ hdr sp, extract is_h1 rendered = Some (hdr, sp)
                 ∧ Exists (fun crd => blank (get_text crd))
                          (findAll is_chord sp)).
Proof.
  intros H rendered. rewrite parse_eq in H. fold rendered in H.
  destruct (extract is_h1 rendered) as [[hdr sp]|] eqn:Hex.
  - rewrite chord_loop_nil in H.
    destruct (mapM _ (findAll is_chord sp)) as [names|] eqn:Hm.
    + simpl in H. destruct (find is_body sp) eqn:Hb; [done|].
      injection H as <- <-. left. split; [done|]. right. by exists hdr, sp.
    + injection H as <- <-. right. split; [done|]. split; [done|].
      exists hdr, sp. split; [done|]. apply mapM_None in Hm.
      eapply Exists_impl; [exact Hm|]. intros crd Hc.
      by apply first_token_None.
  - injection H as <- <-. left. split; [done|]. left.
    by apply extract_None_find.
Qed.

End ParseOutcomes.

Lemma parse_raises_only_witness :
  let E := env_of_tree blank_chord in
  let rendered := bs E (markdown_markdown E blank_chord_markup) in
  (IndexError = AttributeError
   ∧ (find is_h1 rendered = None
      ∨ ∃ hdr sp, extract is_h1 rendered = Some (hdr, sp)
                  ∧ find is_body sp = None))
  ∨ (IndexError = IndexError ∧ new_object = new_object
     ∧ ∃ hdr sp, extract is_h1 rendered = Some (hdr, sp)
                 ∧ Exists (fun crd => blank (get_text crd))
                          (findAll is_chord sp)).
Proof.
  intros E.
  apply (parse_raises_only E blank_chord_markup new_object new_object
           IndexError).
  vm_compute. reflexivity.
Defined.

(** ** Shape of the parsed attributes *)



Lemma strip_elem (c : N) (s : pystr) : c ∈ strip s → c ∈ s.
Proof.
  intros Hc. destruct (strip_spec s) as (l & r & Hs & _).
  rewrite Hs, !elem_of_app. tauto.
Qed.

Lemma strip_blank (s : pystr) : blank s → strip s = [].
Proof.
  intros Hb. unfold strip. by rewrite (proj1 (lstrip_blank s) Hb).
Qed.

(** The title cut from a header text holds no hyphen. *)
Lemma split_header_title (text : pystr) : hyphen ∉ (split_header text).1.
Proof.
  destruct (decide (hyphen ∈ text)) as [Hin|Hni].
  - destruct (split_header_hyphen text Hin) as (a & b & _ & Ha & ->).
    simpl. intros H%strip_elem. done.
  - rewrite (split_header_plain text Hni). simpl. intros H%strip_elem. done.
Qed.

Lemma strip_trimmed (s : pystr) : trimmed (strip s).
Proof. destruct (strip_spec s) as (l & r & _ & _ & _ & Hh & Hl). by split. Qed.

(** Title and artist cut from a header text have no whitespace at
    either end. *)
Lemma split_header_trimmed (text : pystr) :
  trimmed (split_header text).1
  ∧ ∀ a, (split_header text).2 = Some a → trimmed a.
Proof.
  destruct (decide (hyphen ∈ text)) as [Hin|Hni].
  - destruct (split_header_hyphen text Hin) as (a & b & _ & _ & ->).
    split; [apply strip_trimmed|]. intros ? [= <-]. apply strip_trimmed.
  - rewrite (split_header_plain text Hni).
    split; [apply strip_trimmed | done].
Qed.





(** A keyword that names [_chords] replaces the list as it is. *)
Example chords_keyword_replaces :
  match __init__ (env_of_tree five_chords) five_chords_markup
          [kw__chords [u "Am"; u "Am"; u " "]] with
  | inr s => chords s
  | inl _ => []
  end = [u "Am"; u "Am"; u " "].
Proof. vm_compute. reflexivity. Qed.

(** ** Keyword arguments *)

Section Keywords.

Variable E : Env.

(** The constructor with keyword arguments, from the constructor
    without. *)
Lemma init_via_plain (src : pystr) (kwargs : list kwarg) :
  __init__ E src kwargs =
  match __init__ E src [] with
  | inl e => inl e
  | inr s0 =>
      match apply_kwargs kwargs s0 with
      | (inl e, _) => inl e
      | (inr _, s) => inr (finish E s)
      end
  end.
Proof.
  rewrite !init_unfold.
  destruct (if os_path_exists E src then _ else _) as [[e|[]] s0]; [done|].
  destruct (__parse E _ _) as [[e|[]] s1] eqn:Hp; [done|].
  apply parse_keeps in Hp as (_ & Hfn & _). simpl in Hfn.
  simpl. unfold mret, method_ret. simpl. rewrite Hfn.
  by destruct (apply_kwargs kwargs _) as [[e|[]] s2].
Qed.

(** A Song constructed without keyword arguments comes out of the parse
    step with its tags emptied. *)
Lemma init_plain_parse (src : pystr) (s : Song) :
  __init__ E src [] = inr s →
  ∃ mk self s1, __parse E mk self = (inr (), s1) ∧ s = set__tags ∅ s1.
Proof.
  rewrite init_unfold.
  destruct (if os_path_exists E src then _ else _) as [[e|[]] s0]; [done|].
  destruct (__parse E _ _) as [[e|[]] s1] eqn:Hp; [done|].
  pose proof (parse_keeps _ _ _ _ _ Hp) as (_ & Hfn & _). simpl in Hfn.
  simpl. unfold mret, method_ret. simpl. rewrite Hfn. intros [= <-].
  by eexists _, _, s1.
Qed.

Lemma apply_kwargs_returns (kwargs : list kwarg) (self s : Song) :
  apply_kwargs kwargs self = (inr (), s) →
  Forall (fun kw => ¬ unsettable kw) kwargs.
Proof.
  revert self. induction kwargs as [|kw rest IH]; intros self; [done|].
  simpl. unfold mbind, method_bind.
  destruct (setattr kw self) as [[e|[]] self'] eqn:Hset; [done|].
  intros Hrest. constructor; [|by eapply IH].
  destruct kw; simpl; try tauto; vm_compute in Hset; by intros _.
Qed.

(** X5.  When the constructor raises without keyword arguments, it
    raises the same exception with any keyword arguments. *)
Theorem failure_ignores_keywords (src : pystr) (kwargs : list kwarg)
    (e : exn) :
  __init__ E src [] = inl e → __init__ E src kwargs = inl e.
Proof. intros H0. by rewrite init_via_plain, H0. Qed.

(** X6.  The constructor returns no Song when a keyword argument names
    [artist] or [chords]. *)
Theorem unsettable_keyword_fails (src : pystr) (kwargs : list kwarg) :
  Exists unsettable kwargs → ∀ s, __init__ E src kwargs ≠ inr s.
Proof.
  intros Hex s. rewrite init_via_plain.
  destruct (__init__ E src []) as [e|s0]; [done|].
  destruct (apply_kwargs kwargs s0) as [[e|[]] s2] eqn:Hk; [done|].
  apply apply_kwargs_returns in Hk.
  apply Exists_exists in Hex as (kw & Hin & Hkw).
  rewrite Forall_forall in Hk. by destruct (Hk kw Hin).
Qed.

(** X7.  With [filename=None] as the only keyword argument, the file
    name is the lowercased "title_-_artist" of the Song constructed
    without arguments, and nothing else differs; when the heading had
    no artist the text that is lowercased ends in "_-_None". *)
Theorem filename_None_derives (src : pystr) (s0 : Song) :
  __init__ E src [] = inr s0 →
  __init__ E src [kw_filename None]
  = inr (set__filename (Some (derived_filename E s0)) s0)
  ∧ (artist s0 = None →
     derived_filename E s0
     = str_lower E (format_field (title s0) ++ u "_-_None")).
Proof.
  intros H0. split.
  - by rewrite init_via_plain, H0.
  - unfold derived_filename. by intros ->.
Qed.

(** X8.  With [markup=c] as the only keyword argument, the stored markup
    is [c] while title, artist, chords and body are still those parsed
    from the source: the override is not parsed. *)
Theorem markup_keyword_not_parsed (src : pystr) (c : option pystr)
    (s0 : Song) :
  __init__ E src [] = inr s0 →
  ∃ s, __init__ E src [kw_markup c] = inr s
       ∧ markup s = c
       ∧ title s = title s0 ∧ artist s = artist s0
       ∧ chords s = chords s0 ∧ body s = body s0.
Proof.
  intros H0. rewrite init_via_plain, H0.
  pose proof (init_filename_is_src E src [] s0 (Forall_nil_2 _) H0) as Hf.
  unfold filename in Hf. simpl. unfold finish. simpl. rewrite Hf.
  by eexists.
Qed.

(** X9.  A Song constructed without keyword arguments has a title
    without hyphen and without whitespace at either end, and an artist,
    when it has one, without whitespace at either end. *)
Theorem constructed_title_shape (src : pystr) (s : Song) :
  __init__ E src [] = inr s →
  ∃ t, title s = Some t
       ∧ (hyphen ∉ t)
       ∧ trimmed t
       ∧ ∀ a, artist s = Some a → trimmed a.
Proof.
  intros (mk & self & s1 & Hp & ->)%init_plain_parse.
  apply parse_result in Hp as (hdr & sp & chordlist & b & _ & ->).
  unfold title, artist. simpl.
  exists (split_header (get_text hdr)).1. split; [done|].
  split; [apply split_header_title|].
  apply split_header_trimmed.
Qed.

End Keywords.

Lemma failure_ignores_keywords_witness :
  __init__ (env_of_tree no_heading) no_heading_markup
    [kw_title (Some (u "La"))]
  = inl AttributeError.
Proof.
  apply (failure_ignores_keywords (env_of_tree no_heading)
           no_heading_markup [kw_title (Some (u "La"))] AttributeError).
  vm_compute. reflexivity.
Defined.

Lemma unsettable_keyword_fails_witness :
  match __init__ (env_of_tree let_it_be) let_it_be_markup
          [kw_title (Some (u "Let It Be")); kw_chords None] with
  | inr _ => False
  | inl _ => True
  end.
Proof.
  destruct (__init__ _ _ _) as [e|s] eqn:Hinit; [exact I|].
  assert (Hkw : Exists unsettable
                  [kw_title (Some (u "Let It Be")); kw_chords None]).
  { apply Exists_cons_tl, Exists_cons_hd. exact I. }
  apply (unsettable_keyword_fails (env_of_tree let_it_be) let_it_be_markup
           [kw_title (Some (u "Let It Be")); kw_chords None] Hkw s Hinit).
Defined.

Lemma filename_None_derives_witness :
  let E := env_of_tree five_chords in
  let s0 := match __init__ E five_chords_markup [] with
            | inr s => s
            | inl _ => new_object
            end in
  __init__ E five_chords_markup [kw_filename None]
  = inr (set__filename (Some (derived_filename E s0)) s0)
  ∧ (artist s0 = None →
     derived_filename E s0
     = str_lower E (format_field (title s0) ++ u "_-_None")).
Proof.
  intros E s0. apply (filename_None_derives E five_chords_markup s0).
  vm_compute. reflexivity.
Defined.

Example greensleeves_filename :
  match __init__ (env_of_tree five_chords) five_chords_markup
          [kw_filename None] with
  | inr s => filename s
  | inl _ => None
  end = Some (u "greensleeves_-_none").
Proof. vm_compute. reflexivity. Qed.

Lemma markup_keyword_not_parsed_witness :
  let E := env_of_tree let_it_be in
  let s0 := match __init__ E let_it_be_markup [] with
            | inr s => s
            | inl _ => new_object
            end in
  ∃ s, __init__ E let_it_be_markup [kw_markup (Some five_chords_markup)]
       = inr s
       ∧ markup s = Some five_chords_markup
       ∧ title s = title s0 ∧ artist s = artist s0
       ∧ chords s = chords s0 ∧ body s = body s0.
Proof.
  intros E s0.
  apply (markup_keyword_not_parsed E let_it_be_markup
           (Some five_chords_markup) s0).
  vm_compute. reflexivity.
Defined.

Lemma constructed_title_shape_witness :
  let s := match __init__ (env_of_tree let_it_be) let_it_be_markup [] with
           | inr s => s
           | inl _ => new_object
           end in
  ∃ t, title s = Some t
       ∧ (hyphen ∉ t)
       ∧ trimmed t
       ∧ ∀ a, artist s = Some a → trimmed a.
Proof.
  intros s.
  apply (constructed_title_shape (env_of_tree let_it_be) let_it_be_markup s).
  vm_compute. reflexivity.
Defined.

(** X10.  A heading whose text has nothing but whitespace after its
    first hyphen gives the empty string as artist, not [None]. *)
Theorem trailing_hyphen_artist (E : Env) (m : pystr) (self s : Song)
    (hdr : node) (a b : pystr) :
  find is_h1 (bs E (markdown_markdown E m)) = Some hdr →
  get_text hdr = a ++ hyphen :: b → hyphen ∉ a → blank b →
  __parse E (Some m) self = (inr (), s) →
  title s = Some (strip a) ∧ artist s = Some [].
Proof.
  intros Hfind Htext Ha Hb Hparse. rewrite parse_eq in Hparse.
  apply find_Some_extract in Hfind as [sp Hex]. rewrite Hex in Hparse.
  destruct (chord_loop _ []) as [e|chordlist]; [done|].
  simpl in Hparse. destruct (find is_body sp); [|done].
  injection Hparse as <-. unfold title, artist. simpl.
  unfold split_header, split1.
  rewrite (proj2 (cut_at_Some hyphen (get_text hdr) a b) (conj Htext Ha)).
  simpl. by rewrite (strip_blank b Hb).
Qed.

Lemma trailing_hyphen_artist_witness :
  let E := env_of_tree trailing_hyphen in
  let s := (__parse E (Some (u "# Yesterday - ")) new_object).2 in
  title s = Some (strip (u "Yesterday ")) ∧ artist s = Some [].
Proof.
  intros E s.
  apply (trailing_hyphen_artist E (u "# Yesterday - ") new_object s
           (Tag (u "h1") [] [NavigableString (u "Yesterday - ")])
           (u "Yesterday ") (u " ")).
  - vm_compute. reflexivity.
  - vm_compute. reflexivity.
  - apply (bool_decide_unpack _). vm_compute. exact I.
  - apply (bool_decide_unpack _). vm_compute. exact I.
  - vm_compute. reflexivity.
Defined.

(** ** Loading from a file *)

Section Files.

Variable E : Env.




(** X12.  For the path of an existing file whose opening or reading
    raises [OSError], the constructor goes on with no markup and hands
    [None] to the renderer: when the renderer raises on [None], the
    constructor raises that exception. *)
Theorem unreadable_file_parses_None (src : pystr) (kwargs : list kwarg)
    (e : exn) :
  os_path_exists E src = true →
  codecs_read E src = inl OSError →
  markdown_None E = inl e →
  __init__ E src kwargs = inl e.
Proof.
  intros Hex Hread Hnone. rewrite init_unfold, Hex. unfold __load.
  rewrite Hread. unfold assign. simpl.
  unfold __parse, mbind, method_bind, read, lift. simpl.
  by rewrite Hnone.
Qed.

(** X13.  For the path of an existing file whose reading raises
    anything but [OSError] (a decoding error), the constructor raises
    that exception: it is not caught. *)
Theorem read_error_propagates (src : pystr) (kwargs : list kwarg)
    (e : exn) :
  os_path_exists E src = true →
  codecs_read E src = inl e → e ≠ OSError →
  __init__ E src kwargs = inl e.
Proof.
  intros Hex Hread Hne. rewrite init_unfold, Hex. unfold __load.
  rewrite Hread. by destruct e.
Qed.

(** X14.  A Song read from a file and a Song constructed from the
    markup the first one stores, when that text is not itself the path
    of an existing file, have the same markup, title, artist, chords
    and body; their file names are the path and the text. *)
Theorem file_roundtrip (src text : pystr) (s : Song) :
  os_path_exists E src = true →
  codecs_read E src = inr text →
  os_path_exists E text = false →
  __init__ E src [] = inr s →
  markup s = Some text
  ∧ ∃ s', __init__ E text [] = inr s'
          ∧ markup s' = markup s
          ∧ title s' = title s ∧ artist s' = artist s
          ∧ chords s' = chords s ∧ body s' = body s
          ∧ filename s = Some src ∧ filename s' = Some text.
Proof.
  intros Hex Hread Hno Hinit.
  rewrite (init_eq E src text []) in Hinit by (right; by split).
  rewrite (init_eq E text text []) by (left; by split).
  rewrite parse_eq in Hinit. rewrite parse_eq.
  destruct (extract is_h1 _) as [[hdr sp]|]; [|done].
  destruct (chord_loop _ []) as [err|chordlist]; [done|].
  simpl in *. destruct (find is_body sp) as [b|]; [|done].
  simpl in *. injection Hinit as <-. split; [done|]. by eexists.
Qed.

End Files.


Lemma unreadable_file_parses_None_witness :
  __init__ (file_env songs_path (raise OSError) (raise AttributeError)
              let_it_be) songs_path []
  = inl AttributeError.
Proof.
  apply (unreadable_file_parses_None
           (file_env songs_path (raise OSError) (raise AttributeError)
              let_it_be) songs_path [] AttributeError).
  - vm_compute. reflexivity.
  - reflexivity.
  - reflexivity.
Defined.

Lemma read_error_propagates_witness :
  __init__ (file_env songs_path (raise UnicodeDecodeError)
              (raise AttributeError) let_it_be) songs_path []
  = inl UnicodeDecodeError.
Proof.
  apply (read_error_propagates
           (file_env songs_path (raise UnicodeDecodeError)
              (raise AttributeError) let_it_be) songs_path []
           UnicodeDecodeError).
  - vm_compute. reflexivity.
  - reflexivity.
  - discriminate.
Defined.

Lemma file_roundtrip_witness :
  let E := file_env songs_path (inr let_it_be_markup)
             (raise AttributeError) let_it_be in
  let s := match __init__ E songs_path [] with
           | inr s => s
           | inl _ => new_object
           end in
  markup s = Some let_it_be_markup
  ∧ ∃ s', __init__ E let_it_be_markup [] = inr s'
          ∧ markup s' = markup s
          ∧ title s' = title s ∧ artist s' = artist s
          ∧ chords s' = chords s ∧ body s' = body s
          ∧ filename s = Some songs_path
          ∧ filename s' = Some let_it_be_markup.
Proof.
  intros E s.
  apply (file_roundtrip E songs_path let_it_be_markup s).
  - vm_compute. reflexivity.
  - reflexivity.
  - vm_compute. reflexivity.
  - vm_compute. reflexivity.
Defined.

(** ** Tags, composed *)

(** X16.  A tag that [tag] has just put on a Song cannot be taken off
    with [untag]: the call raises [TypeError] and the tag stays. *)
Theorem tag_then_untag_raises (self : Song) (t : pystr) :
  let s := (tag t self).2 in
  (tag t self).1 = inr ()
  ∧ untag t s = (raise TypeError, s) ∧ t ∈ tags s.
Proof.
  assert (Hin : t ∈ tags (tag t self).2).
  { unfold tag, mbind, method_bind, read, assign, tags. simpl.
    case_bool_decide as Hni; simpl.
    - apply elem_of_union_l. by apply elem_of_singleton.
    - done. }
  simpl. split.
  - unfold tag, mbind, method_bind, read, assign. simpl.
    by case_bool_decide.
  - split; [|done]. unfold untag, mbind, method_bind, read.
    unfold tags in Hin. by rewrite bool_decide_eq_true_2.
Qed.

(** X17.  [clear_tags] empties the tags whatever they were, and after it
    [untag] of any tag returns without a change. *)
Theorem clear_tags_then_untag (self : Song) (t : pystr) :
  let s := (clear_tags self).2 in
  (clear_tags self).1 = inr ()
  ∧ tags s = ∅
  ∧ untag t s = (inr (), s).
Proof.
  simpl. split; [done|]. split; [done|].
  unfold untag, mbind, method_bind, read. simpl.
  rewrite bool_decide_eq_false_2; [done|]. apply not_elem_of_empty.
Qed.
